(** * TIN mesh kernel of threejs-editor

    A shallow embedding of [src/utils/geometry.ts] (the geometry helpers and
    the triangulator adapter) and of the kernel part of [src/core/TinMesh.ts]
    (the point list, the soft-deleted set, the triangle list, and the
    operations that edit and query them).

    - A TypeScript [number] that holds a coordinate or a distance is an IEEE
      754 binary64 value: Rocq's primitive [float].
    - A triangle vertex index is an element of Delaunator's [Uint32Array]: [N].
    - A position in [points] (a raw index) is a list position: [nat];
      [deletedPoints : Set<number>] is a [gset nat].
    - Methods of [TinMesh] mutate [this], may propagate an exception and have
      effects outside the kernel (the call to Delaunator, the rebuild of the
      THREE objects, the [onChange] callback): they live in the monad [Eff],
      a state monad over the object with exceptions and a log of events. *)

From Stdlib Require Import Floats ZArith Ascii Sorted.
From stdpp Require Import gmap strings list pretty.

Open Scope Z_scope.

(** ** Data model ([utils/geometry.ts]) *)

Module Point3D.
Record t : Type := mk { x : float; y : float; z : float }.
End Point3D.

Record Triangle : Type := mkTriangle {
  indices : N * N * N;
  deleted : bool
}.

Module Edge.
Record t : Type := mk { a : N; b : N; key : string }.
End Edge.

(** [THREE.Vector3]: three numbers. [distanceTo] is three.js code,
    [Math.sqrt(dx*dx + dy*dy + dz*dz)] with the sum taken left to right. *)
Module Vector3.
Record t : Type := mk { x : float; y : float; z : float }.

Definition distanceToSquared (u v : t) : float :=
  let dx := (x u - x v)%float in
  let dy := (y u - y v)%float in
  let dz := (z u - z v)%float in
  (dx * dx + dy * dy + dz * dz)%float.

Definition distanceTo (u v : t) : float :=
  PrimFloat.sqrt (distanceToSquared u v).
End Vector3.

(** ** Effects *)

(** The identity of a registered [onChange] closure. *)
Definition Callback : Type := nat.

Inductive Event : Type :=
  | NewDelaunator (coords : list float)  (* [new Delaunator(coords)] evaluated *)
  | UpdateMesh                           (* [updateMesh()] rebuilt the scene objects *)
  | OnChange (cb : Callback).            (* the [onChange] callback was invoked *)

Inductive Exn : Type :=
  | DelaunatorError   (* thrown by the Delaunator constructor *)
  | TypeError.        (* property access on [undefined] *)

(** The outcome of running a piece of code from a state [S]: the value it
    returned or the exception it propagated, the state it left behind (an
    exception does not roll the object back), and the events in order. *)
Record Run (S A : Type) : Type := mkRun {
  result : Exn + A;
  final : S;
  events : list Event
}.
Arguments mkRun {S A} _ _ _.
Arguments result {S A} _.
Arguments final {S A} _.
Arguments events {S A} _.

Definition Eff (S A : Type) : Type := S → Run S A.

Definition ret {S A} (v : A) : Eff S A := λ s, mkRun (inr v) s [].

Definition bind {S A B} (m : Eff S A) (k : A → Eff S B) : Eff S B := λ s,
  let r := m s in
  match result r with
  | inl e => mkRun (inl e) (final r) (events r)
  | inr v => let r' := k v (final r) in
             mkRun (result r') (final r') (events r ++ events r')
  end.

Definition throw {S A} (e : Exn) : Eff S A := λ s, mkRun (inl e) s [].
Definition get {S} : Eff S S := λ s, mkRun (inr s) s [].
Definition put {S} (s' : S) : Eff S unit := λ _, mkRun (inr tt) s' [].
Definition emit {S} (ev : Event) : Eff S unit := λ s, mkRun (inr tt) s [ev].

Notation "'let*' x := m 'in' k" := (bind m (λ x, k))
  (at level 10, x name, m at level 200, k at level 200,
   format "'[v' 'let*'  x  :=  m  'in' '/' k ']'").
Notation "m >> k" := (bind m (λ _, k)) (at level 65, right associativity).

(** [xs.forEach(f)] *)
Fixpoint forEach {S A} (xs : list A) (f : A → Eff S unit) : Eff S unit :=
  match xs with
  | [] => ret tt
  | x :: rest => f x >> forEach rest f
  end.

(** [xs.filter((v, i) => f(v, i))], the callback seeing positions from [i]. *)
Fixpoint filterIndexed {A} (f : A → nat → bool) (i : nat) (xs : list A) : list A :=
  match xs with
  | [] => []
  | v :: rest =>
      if f v i then v :: filterIndexed f (S i) rest
      else filterIndexed f (S i) rest
  end.

(** ** Geometry helpers ([utils/geometry.ts]) *)

(** Template literal [`${a}-${b}`] of two indices: the decimal digits of
    each, joined by a dash. *)
Definition getEdgeKey (a b : N) : string :=
  if (a <? b)%N then pretty a +:+ "-" +:+ pretty b
  else pretty b +:+ "-" +:+ pretty a.

Definition getTriangleEdges (tri : Triangle) : list Edge.t :=
  let '(i0, i1, i2) := indices tri in
  [ Edge.mk i0 i1 (getEdgeKey i0 i1);
    Edge.mk i1 i2 (getEdgeKey i1 i2);
    Edge.mk i2 i0 (getEdgeKey i2 i0) ].

Definition trianglesWithEdge (triangles : list Triangle) (edgeKey : string) : list Z :=
  filter (λ i, 0 ≤ i)
    (imap (λ i t,
       if deleted t then -1
       else if existsb (λ e, String.eqb (Edge.key e) edgeKey) (getTriangleEdges t)
            then Z.of_nat i else -1) triangles).

(** The [for (i = 0; i < delaunay.triangles.length; i += 3)] loop of
    [computeDelaunay]: one fresh [Triangle] per three consecutive entries.
    Delaunator's [triangles] holds three entries per triangle, so the last
    pattern is met at the end of the array only. (On a trailing group of one
    or two entries, which Delaunator never produces, the source would read
    [undefined] into a triangle; [packTriangles_lookup] and
    [packTriangles_length] relate this function to the indexed loop on the
    arrays Delaunator does produce.) *)
Fixpoint packTriangles (tris : list N) : list Triangle :=
  match tris with
  | i0 :: i1 :: i2 :: rest => mkTriangle (i0, i1, i2) false :: packTriangles rest
  | _ => []
  end.

(** ** The kernel, over the external planar triangulation *)

Section Kernel.

(** [new Delaunator(coords).triangles]: the flat array of vertex indices,
    or [None] when the constructor throws. *)
Variable Delaunator : list float → option (list N).

Definition newDelaunator {S} (coords : list float) : Eff S (list N) :=
  emit (NewDelaunator coords) >>
  match Delaunator coords with
  | Some tris => ret tris
  | None => throw DelaunatorError
  end.

Definition computeDelaunay {S} (points : list Point3D.t) : Eff S (list Triangle) :=
  if (length points <? 3)%nat then ret []
  else
    let coords := flat_map (λ p, [Point3D.x p; Point3D.y p]) points in
    let* delaunay := newDelaunator coords in
    ret (packTriangles delaunay).

(** *** [class TinMesh]

    The fields that only hold THREE objects ([meshGroup], [surfaceMesh],
    [wireframeMesh], [pointsMesh] and the two highlights) are written by
    [updateMesh] and the highlight methods and read by nothing in the
    kernel; [updateMesh] is the event [UpdateMesh]. *)
Record TinMesh : Type := mkTinMesh {
  points : list Point3D.t;
  triangles : list Triangle;
  deletedPoints : gset nat;
  onChange : option Callback
}.

Definition setPointsField (v : list Point3D.t) : Eff TinMesh unit :=
  let* this := get in
  put (mkTinMesh v (triangles this) (deletedPoints this) (onChange this)).

Definition setTrianglesField (v : list Triangle) : Eff TinMesh unit :=
  let* this := get in
  put (mkTinMesh (points this) v (deletedPoints this) (onChange this)).

Definition setDeletedPointsField (v : gset nat) : Eff TinMesh unit :=
  let* this := get in
  put (mkTinMesh (points this) (triangles this) v (onChange this)).

Definition getActivePoints (this : TinMesh) : list Point3D.t :=
  filterIndexed (λ _ i, negb (bool_decide (i ∈ deletedPoints this))) 0 (points this).

Definition updateMesh : Eff TinMesh unit := emit UpdateMesh.

(** [this.onChange?.()] *)
Definition callOnChange : Eff TinMesh unit :=
  let* this := get in
  match onChange this with
  | Some cb => emit (OnChange cb)
  | None => ret tt
  end.

Definition regenerate : Eff TinMesh unit :=
  let* this := get in
  let activePoints :=
    filterIndexed (λ _ i, negb (bool_decide (i ∈ deletedPoints this))) 0 (points this) in
  let* tris := computeDelaunay activePoints in
  setTrianglesField tris >>
  updateMesh >>
  callOnChange.

Definition setPoints (pts : list Point3D.t) : Eff TinMesh unit :=
  setPointsField pts >>
  setDeletedPointsField ∅ >>
  regenerate.

(** [this.triangles[i].deleted = true]; reading a position outside the
    array gives [undefined], and the assignment then throws. *)
Definition markDeleted (i : Z) : Eff TinMesh unit :=
  let* this := get in
  match (if 0 <=? i then triangles this !! Z.to_nat i else None) with
  | Some t =>
      setTrianglesField (<[Z.to_nat i := mkTriangle (indices t) true]> (triangles this))
  | None => throw TypeError
  end.

Definition deleteEdge (edgeKey : string) : Eff TinMesh unit :=
  let* this := get in
  let triIndices := trianglesWithEdge (triangles this) edgeKey in
  forEach triIndices markDeleted >>
  updateMesh >>
  callOnChange.

(** The [for (let i = 0; i < this.points.length; i++)] loop of
    [deletePointByActiveIndex], over the raw indices still to visit. *)
Fixpoint deleteScan (activeIndex count : Z) (rest : list nat) : Eff TinMesh unit :=
  match rest with
  | [] => ret tt
  | i :: rest' =>
      let* this := get in
      if negb (bool_decide (i ∈ deletedPoints this)) then
        if count =? activeIndex then
          setDeletedPointsField ({[i]} ∪ deletedPoints this)   (* break *)
        else deleteScan activeIndex (count + 1) rest'
      else deleteScan activeIndex count rest'
  end.

(** [activeIndex] is an integer: the callers pass what [findNearestPoint]
    returned. *)
Definition deletePointByActiveIndex (activeIndex : Z) : Eff TinMesh unit :=
  let* this := get in
  let activePoints := getActivePoints this in
  if (activeIndex <? 0) || (Z.of_nat (length activePoints) <=? activeIndex) then ret tt
  else
    deleteScan activeIndex 0 (seq 0 (length (points this))) >>
    regenerate.

(** The point as the scene shows it: [new THREE.Vector3(p.x, p.z, -p.y)]. *)
Definition toScene (p : Point3D.t) : Vector3.t :=
  Vector3.mk (Point3D.x p) (Point3D.z p) (- Point3D.y p)%float.

(** One turn of the loop of [findNearestPoint] on [(minDist, nearestIndex)]. *)
Definition nearestStep (point : Vector3.t) (acc : float * option nat)
    (ip : nat * Point3D.t) : float * option nat :=
  let '(minDist, nearestIndex) := acc in
  let '(i, p) := ip in
  let v := toScene p in
  let dist := Vector3.distanceTo point v in
  if (dist <? minDist)%float then (dist, Some i) else (minDist, nearestIndex).

Definition findNearestPoint (this : TinMesh) (point : Vector3.t) : option nat :=
  let activePoints := getActivePoints this in
  let '(minDist, nearestIndex) :=
    fold_left (nearestStep point) (imap pair activePoints) (infinity, None) in
  if (minDist <? 1.5)%float then nearestIndex else None.

End Kernel.

(** The raw indices of the active projection, in ascending order: what
    [points.map((_, i) => i)] becomes under the filter of [getActivePoints].
    Position [k] of this list is the raw index behind active index [k]. *)
Definition activeRawIndices (this : TinMesh) : list nat :=
  filter (λ i, i ∉ deletedPoints this) (seq 0 (length (points this))).

(** *** Vocabulary of the statements *)

(** The distance the loop of [findNearestPoint] measures for an active point. *)
Definition sceneDistance (point : Vector3.t) (p : Point3D.t) : float :=
  Vector3.distanceTo point (toScene p).

(** What the loop of [findNearestPoint] has established once it has
    visited the active points [seen]. *)
Definition nearestInv (point : Vector3.t) (seen : list Point3D.t)
    (acc : float * option nat) : Prop :=
  let '(minDist, nearestIndex) := acc in
  (∀ j q, seen !! j = Some q → (sceneDistance point q <? minDist)%float = false) ∧
  match nearestIndex with
  | None => minDist = infinity
  | Some i =>
      ∃ p, seen !! i = Some p ∧ minDist = sceneDistance point p ∧
           (minDist <? infinity)%float = true ∧
           ∀ j q, (j < i)%nat → seen !! j = Some q →
                  (sceneDistance point q <=? minDist)%float = false
  end.

(** No dash occurs in the string. *)
Fixpoint dashFree (s : string) : bool :=
  match s with
  | EmptyString => true
  | String c rest => negb (Ascii.eqb c "-"%char) && dashFree rest
  end.

(** The triangle after [t.deleted = true]. *)
Definition flagDeleted (t : Triangle) : Triangle := mkTriangle (indices t) true.

(** *** Two stand-ins for the injected capability, to run the kernel *)

(** A constructor that throws on every input. *)
Definition throwingDelaunator : list float → option (list N) := λ _, None.

(** The triangle strip over [n] points, triangle [k] on the points [k],
    [k+1], [k+2]: a triangulation of points listed in zigzag order, as the
    corners of the square below are. *)
Definition stripTriangles (n : nat) : list N :=
  flat_map (λ k, [N.of_nat k; N.of_nat (k + 1); N.of_nat (k + 2)]) (seq 0 (n - 2)).

Definition stripDelaunator : list float → option (list N) :=
  λ coords, Some (stripTriangles (length coords / 2)).

(** The square of the concrete scenarios: (0,0,0), (5,0,0), (0,5,0), (5,5,0). *)
Definition square : list Point3D.t :=
  [ Point3D.mk 0 0 0; Point3D.mk 5 0 0; Point3D.mk 0 5 0; Point3D.mk 5 5 0 ].

(** The same square with its corners lifted to different heights. *)
Definition raisedSquare : list Point3D.t :=
  [ Point3D.mk 0 0 1; Point3D.mk 5 0 2; Point3D.mk 0 5 3; Point3D.mk 5 5 4 ].

(** The mesh after [setPoints(square)] with a callback registered. *)
Definition squareMesh : TinMesh :=
  final (setPoints stripDelaunator square (mkTinMesh [] [] ∅ (Some 7%nat))).

(** Two points one unit apart, for the tie of [findNearestPoint]. *)
Definition pairMesh : TinMesh :=
  mkTinMesh [ Point3D.mk 0 0 0; Point3D.mk 1 0 0 ] [] ∅ None.

(** ** Further functions of the sources *)

(** *** [utils/geometry.ts] *)

(** [t.indices.includes(pointIndex)] *)
Definition includes (ix : N * N * N) (p : N) : bool :=
  let '(i0, i1, i2) := ix in
  (i0 =? p)%N || (i1 =? p)%N || (i2 =? p)%N.

Definition trianglesUsingPoint (triangles : list Triangle) (pointIndex : N) : list Z :=
  filter (λ i, 0 ≤ i)
    (imap (λ i t, if includes (indices t) pointIndex && negb (deleted t)
                  then Z.of_nat i else -1) triangles).

(** [s.split(sep)] for a separator of one character: the pieces between
    the occurrences of [sep]. *)
Fixpoint split (sep : ascii) (s : string) : list string :=
  match s with
  | EmptyString => [EmptyString]
  | String c rest =>
      if Ascii.eqb c sep then EmptyString :: split sep rest
      else match split sep rest with
           | piece :: pieces => String c piece :: pieces
           | [] => [String c EmptyString]
           end
  end.

(** *** [THREE.Vector3] and [Math], as far as [TinMesh] uses them

    three.js: [subVectors(a, b)] is [a - b], [addVectors(a, b)] is [a + b],
    [multiplyScalar(s)] scales each component, [dot] sums the three products
    left to right. [Math.max] and [Math.min] answer NaN when an argument is
    NaN, and order [-0] below [+0]. *)
Definition subVectors (u v : Vector3.t) : Vector3.t :=
  Vector3.mk (Vector3.x u - Vector3.x v)%float (Vector3.y u - Vector3.y v)%float
             (Vector3.z u - Vector3.z v)%float.

Definition addVectors (u v : Vector3.t) : Vector3.t :=
  Vector3.mk (Vector3.x u + Vector3.x v)%float (Vector3.y u + Vector3.y v)%float
             (Vector3.z u + Vector3.z v)%float.

Definition multiplyScalar (u : Vector3.t) (s : float) : Vector3.t :=
  Vector3.mk (Vector3.x u * s)%float (Vector3.y u * s)%float (Vector3.z u * s)%float.

Definition dot (u v : Vector3.t) : float :=
  (Vector3.x u * Vector3.x v + Vector3.y u * Vector3.y v + Vector3.z u * Vector3.z v)%float.

Definition MathMax (u v : float) : float :=
  if is_nan u || is_nan v then nan
  else if (u <? v)%float then v
  else if (v <? u)%float then u
  else match classify u with NZero => v | _ => u end.

Definition MathMin (u v : float) : float :=
  if is_nan u || is_nan v then nan
  else if (u <? v)%float then u
  else if (v <? u)%float then v
  else match classify u with PZero => v | _ => u end.

(** *** [class TinMesh], the remaining methods *)

(** [distanceToLineSegment(p, a, b)] *)
Definition distanceToLineSegment (p a b : Vector3.t) : float :=
  let ab := subVectors b a in
  let abDotAb := dot ab ab in
  if (abDotAb =? 0)%float then Vector3.distanceTo p a
  else
    let ap := subVectors p a in
    let t := MathMax 0 (MathMin 1 (dot ap ab / abDotAb)%float) in
    let closest := addVectors a (multiplyScalar ab t) in
    Vector3.distanceTo p closest.

(** The local variables of the loop of [findNearestEdge]. *)
Record EdgeScan : Type := mkEdgeScan {
  minDist : float;
  nearestEdge : option string;
  edgesSeen : gset string
}.

(** One turn of the inner loop of [findNearestEdge]. Reading
    [activePoints] outside its bounds gives [undefined], and the access to
    its [x] then throws. *)
Definition edgeStep (activePoints : list Point3D.t) (point : Vector3.t)
    (acc : EdgeScan) (edge : Edge.t) : Exn + EdgeScan :=
  if bool_decide (Edge.key edge ∈ edgesSeen acc) then inr acc   (* continue *)
  else
    let seen := {[Edge.key edge]} ∪ edgesSeen acc in
    match activePoints !! N.to_nat (Edge.a edge),
          activePoints !! N.to_nat (Edge.b edge) with
    | Some pa, Some pb =>
        let va := toScene pa in
        let vb := toScene pb in
        let dist := distanceToLineSegment point va vb in
        if (dist <? minDist acc)%float
        then inr (mkEdgeScan dist (Some (Edge.key edge)) seen)
        else inr (mkEdgeScan (minDist acc) (nearestEdge acc) seen)
    | _, _ => inl TypeError
    end.

(** The two nested [for ... of] loops, over the edges of the triangles in
    order; an exception ends them. *)
Fixpoint edgeLoop (activePoints : list Point3D.t) (point : Vector3.t)
    (acc : EdgeScan) (edges : list Edge.t) : Exn + EdgeScan :=
  match edges with
  | [] => inr acc
  | edge :: rest =>
      match edgeStep activePoints point acc edge with
      | inl e => inl e
      | inr acc' => edgeLoop activePoints point acc' rest
      end
  end.

Definition findNearestEdge (this : TinMesh) (point : Vector3.t) : Exn + option string :=
  let activePoints := getActivePoints this in
  let activeTriangles := filter (λ t, deleted t = false) (triangles this) in
  match edgeLoop activePoints point (mkEdgeScan infinity None ∅)
          (flat_map getTriangleEdges activeTriangles) with
  | inl e => inl e
  | inr acc => inr (if (minDist acc <? 2)%float then nearestEdge acc else None)
  end.

(** What [updateMesh] hands to the scene: the surface geometry (the
    numbers pushed to [vertices] and [indices], before three.js stores them
    in its typed arrays; the wireframe is derived from the same geometry),
    when there is one, and the positions of the point markers, which
    [createPointsOnly] builds on every path. *)
Record MeshGeometry : Type := mkMeshGeometry {
  vertices : list float;
  indexBuffer : list N
}.

Definition scenePositions (pts : list Point3D.t) : list float :=
  flat_map (λ p, [Point3D.x p; Point3D.z p; (- Point3D.y p)%float]) pts.

Definition updateMeshGeometry (this : TinMesh) : option MeshGeometry * list float :=
  let activePoints := getActivePoints this in
  if (length activePoints <? 3)%nat then (None, scenePositions activePoints)
  else
    let activeTriangles := filter (λ t, deleted t = false) (triangles this) in
    if (length activeTriangles =? 0)%nat then (None, scenePositions activePoints)
    else
      let vertices := scenePositions activePoints in
      let indices :=
        flat_map (λ tri, let '(i0, i1, i2) := indices tri in [i0; i1; i2]) activeTriangles in
      (Some (mkMeshGeometry vertices indices), scenePositions activePoints).

(** [highlightPoint(activeIndex, scene)]: the outcome, and what
    [this.highlightedPoint] holds afterwards, as the position of the marker
    and whether the marker was added to the scene. The previous marker is
    always removed first. A position outside the array that passes the
    guard (a negative one) reads [undefined], and [p.x] throws after the new
    marker was stored, still at the origin and not yet in the scene. *)
Definition highlightPoint (this : TinMesh) (activeIndex : option Z)
    : (Exn + unit) * option (Vector3.t * bool) :=
  match activeIndex with
  | None => (inr tt, None)
  | Some i =>
      let activePoints := getActivePoints this in
      if Z.of_nat (length activePoints) <=? i then (inr tt, None)
      else
        match (if 0 <=? i then activePoints !! Z.to_nat i else None) with
        | Some p => (inr tt, Some (toScene p, true))
        | None => (inl TypeError, Some (Vector3.mk 0 0 0, false))
        end
  end.

(** *** Vocabulary of the further statements *)

(** [getTriangleEdges(t).some(e => e.key === edgeKey)] *)
Definition hasKey (edgeKey : string) (t : Triangle) : bool :=
  existsb (λ e, String.eqb (Edge.key e) edgeKey) (getTriangleEdges t).

(** The unordered pair [{a, b}] is one of the three sides of the triangle. *)
Definition hasSide (t : Triangle) (a b : N) : Prop :=
  let '(i0, i1, i2) := indices t in
  (a = i0 ∧ b = i1) ∨ (a = i1 ∧ b = i0) ∨
  (a = i1 ∧ b = i2) ∨ (a = i2 ∧ b = i1) ∨
  (a = i2 ∧ b = i0) ∨ (a = i0 ∧ b = i2).

(** The point index is one of the three vertices of the triangle. *)
Definition hasVertex (t : Triangle) (p : N) : Prop :=
  let '(i0, i1, i2) := indices t in p = i0 ∨ p = i1 ∨ p = i2.

(** Every soft-deleted raw index is a position of [points]. *)
Definition deletedPointsValid (this : TinMesh) : Prop :=
  ∀ r, r ∈ deletedPoints this → (r < length (points this))%nat.

(** The three vertices of the triangle are active indices below [n]. *)
Definition triangleBelow (n : nat) (t : Triangle) : Prop :=
  let '(i0, i1, i2) := indices t in
  (N.to_nat i0 < n)%nat ∧ (N.to_nat i1 < n)%nat ∧ (N.to_nat i2 < n)%nat.

(** Every triangle refers to points of the current active projection. *)
Definition trianglesInRange (this : TinMesh) : Prop :=
  Forall (triangleBelow (length (getActivePoints this))) (triangles this).

(** The contract of the capability: on [n] points (two coordinates each) it
    answers three entries per triangle, each a vertex index below [n]. *)
Definition DelaunatorContract (Delaunator : list float → option (list N)) : Prop :=
  ∀ coords tris, Delaunator coords = Some tris →
    (∃ m, length tris = (3 * m)%nat) ∧
    Forall (λ i, (N.to_nat i < length coords / 2)%nat) tris.

(** [xs.map((t, i) => g(t) ? i : -1).filter(i => i >= 0)], the shape of both
    topology queries, with the positions counted from [n]. *)
Definition positionsFrom {A} (g : A → bool) (n : nat) (xs : list A) : list Z :=
  filter (λ i, 0 ≤ i) (imap (λ i t, if g t then Z.of_nat (n + i) else -1) xs).

(** [this.triangles.filter(t => !t.deleted)], as [updateMesh] and
    [findNearestEdge] both compute it. *)
Definition activeTriangles (this : TinMesh) : list Triangle :=
  filter (λ t, deleted t = false) (triangles this).

(** The distance [findNearestEdge] measures for an edge, when both of its
    ends are positions of the active projection. *)
Definition edgeDistance (activePoints : list Point3D.t) (point : Vector3.t)
    (edge : Edge.t) : option float :=
  match activePoints !! N.to_nat (Edge.a edge),
        activePoints !! N.to_nat (Edge.b edge) with
  | Some pa, Some pb => Some (distanceToLineSegment point (toScene pa) (toScene pb))
  | _, _ => None
  end.

(** The edges that get past [edgesSeen]: the first edge of each key. *)
Fixpoint firstEdges (seen : gset string) (edges : list Edge.t) : list Edge.t :=
  match edges with
  | [] => []
  | edge :: rest =>
      if bool_decide (Edge.key edge ∈ seen) then firstEdges seen rest
      else edge :: firstEdges ({[Edge.key edge]} ∪ seen) rest
  end.

(** The edges [findNearestEdge] measures, in the order it measures them. *)
Definition measuredEdges (this : TinMesh) : list Edge.t :=
  firstEdges ∅ (flat_map getTriangleEdges (activeTriangles this)).

(** The loop of [findNearestEdge] on the edges it measures, without the
    bookkeeping of [edgesSeen]. *)
Fixpoint measureLoop (activePoints : list Point3D.t) (point : Vector3.t)
    (acc : float * option string) (edges : list Edge.t) : Exn + (float * option string) :=
  match edges with
  | [] => inr acc
  | edge :: rest =>
      match edgeDistance activePoints point edge with
      | None => inl TypeError
      | Some dist =>
          measureLoop activePoints point
            (if (dist <? fst acc)%float then (dist, Some (Edge.key edge)) else acc) rest
      end
  end.

(** What the loop of [findNearestEdge] has established once it has
    measured the edges [seen]. *)
Definition edgeInv (activePoints : list Point3D.t) (point : Vector3.t)
    (seen : list Edge.t) (acc : float * option string) : Prop :=
  let '(least, nearest) := acc in
  (∀ n e, seen !! n = Some e →
     ∃ d, edgeDistance activePoints point e = Some d ∧ (d <? least)%float = false) ∧
  match nearest with
  | None => least = infinity
  | Some k =>
      ∃ n e, seen !! n = Some e ∧ Edge.key e = k ∧
             edgeDistance activePoints point e = Some least ∧
             (least <? infinity)%float = true ∧
             ∀ m e' d', (m < n)%nat → seen !! m = Some e' →
                        edgeDistance activePoints point e' = Some d' →
                        (d' <=? least)%float = false
  end.

(** [new TinMesh()] *)
Definition newTinMesh : TinMesh := mkTinMesh [] [] ∅ None.

(** The objects a program obtains from [new TinMesh()] by assigning
    [onChange] and by calls of the four mutating methods that returned
    normally. *)
Inductive Reachable (Delaunator : list float → option (list N)) : TinMesh → Prop :=
  | reach_new : Reachable Delaunator newTinMesh
  | reach_onChange this cb :
      Reachable Delaunator this →
      Reachable Delaunator
        (mkTinMesh (points this) (triangles this) (deletedPoints this) cb)
  | reach_setPoints this pts :
      Reachable Delaunator this →
      result (setPoints Delaunator pts this) = inr tt →
      Reachable Delaunator (final (setPoints Delaunator pts this))
  | reach_regenerate this :
      Reachable Delaunator this →
      result (regenerate Delaunator this) = inr tt →
      Reachable Delaunator (final (regenerate Delaunator this))
  | reach_deleteEdge this k :
      Reachable Delaunator this →
      Reachable Delaunator (final (deleteEdge k this))
  | reach_deletePointByActiveIndex this i :
      Reachable Delaunator this →
      result (deletePointByActiveIndex Delaunator i this) = inr tt →
      Reachable Delaunator (final (deletePointByActiveIndex Delaunator i this)).

(** * Properties *)

(** ** The order of binary64 numbers

    [<] and [<=] on JavaScript numbers are those of IEEE 754: every
    comparison with NaN is false. The facts below are read off the
    specification [SFcompare] of the primitive comparisons. *)

Section FloatOrder.

Local Ltac by_signs :=
  repeat match goal with s : bool |- _ => destruct s end;
  simpl in *; try discriminate; try reflexivity.

Local Ltac by_compare :=
  repeat match goal with
  | H : context [(?u ?= ?v)%Z] |- _ =>
      destruct (Z.compare_spec u v); simpl in H
  | |- context [(?u ?= ?v)%Z] =>
      destruct (Z.compare_spec u v); simpl
  | H : context [Pos.compare_cont Eq ?u ?v] |- _ =>
      change (Pos.compare_cont Eq u v) with (Pos.compare u v) in H;
      destruct (Pos.compare_spec u v); simpl in H
  | |- context [Pos.compare_cont Eq ?u ?v] =>
      change (Pos.compare_cont Eq u v) with (Pos.compare u v);
      destruct (Pos.compare_spec u v); simpl
  end;
  subst; try discriminate; try reflexivity; try lia.

Local Ltac by_float_cases :=
  unfold SFltb, SFleb;
  repeat match goal with f : spec_float |- _ => destruct f end;
  simpl; try discriminate; try reflexivity; by_signs; by_compare.

Lemma SFltb_irrefl u : SFltb u u = false.
Proof. by_float_cases. Qed.

Lemma SFltb_trans u v w : SFltb u v = true → SFltb v w = true → SFltb u w = true.
Proof. by_float_cases. Qed.

Lemma SFltb_below u v m : SFltb u m = true → SFltb v m = false → SFleb v u = false.
Proof. by_float_cases. Qed.

Lemma SFleb_false_ltb u v : SFleb v u = false → SFltb v u = false.
Proof. by_float_cases. Qed.

Lemma SFltb_number u v : SFltb u v = true → SFleb u u = true.
Proof. by_float_cases. Qed.

Lemma SFltb_between u v w :
  SFltb u w = true → SFltb v w = false → SFleb v v = true → SFltb u v = true.
Proof. by_float_cases. Qed.

Lemma ltb_irrefl (u : float) : (u <? u)%float = false.
Proof. rewrite ltb_spec. apply SFltb_irrefl. Qed.

Lemma ltb_trans (u v w : float) :
  (u <? v)%float = true → (v <? w)%float = true → (u <? w)%float = true.
Proof. rewrite !ltb_spec. apply SFltb_trans. Qed.

(** Something below the running minimum is strictly below everything that
    was not: the earlier entries are neither nearer nor as near. *)
Lemma ltb_below (u v m : float) :
  (u <? m)%float = true → (v <? m)%float = false → (v <=? u)%float = false.
Proof. rewrite !ltb_spec, leb_spec. apply SFltb_below. Qed.

Lemma leb_false_ltb (u v : float) : (v <=? u)%float = false → (v <? u)%float = false.
Proof. rewrite ltb_spec, leb_spec. apply SFleb_false_ltb. Qed.

(** A number below another one is not NaN. *)
Lemma ltb_number (u v : float) : (u <? v)%float = true → (u <=? u)%float = true.
Proof. rewrite ltb_spec, leb_spec. apply SFltb_number. Qed.

Lemma ltb_between (u v w : float) :
  (u <? w)%float = true → (v <? w)%float = false → (v <=? v)%float = true →
  (u <? v)%float = true.
Proof. rewrite !ltb_spec, leb_spec. apply SFltb_between. Qed.

End FloatOrder.


(** ** [findNearestPoint] *)

Section NearestPoint.

Variable point : Vector3.t.

Lemma nearestInv_step seen acc p :
  nearestInv point seen acc →
  nearestInv point (seen ++ [p]) (nearestStep point acc (length seen, p)).
Proof.
  destruct acc as [minDist nearestIndex]. intros [Hmin Hidx].
  unfold nearestStep. fold (sceneDistance point p).
  destruct (sceneDistance point p <? minDist)%float eqn:Hlt.
  - split.
    + intros j q Hj. apply lookup_snoc_Some in Hj as [[Hj Hq] | [-> <-]].
      * apply leb_false_ltb, (ltb_below _ _ minDist); [done | by eapply Hmin].
      * apply ltb_irrefl.
    + exists p. split; [by apply list_lookup_middle | split; [done | split]].
      * destruct nearestIndex as [i|]; [| by subst minDist].
        destruct Hidx as (p' & _ & _ & Hfin & _). by eapply ltb_trans.
      * intros j q Hj Hq. rewrite lookup_app_l in Hq by done.
        apply (ltb_below _ _ minDist); [done | by eapply Hmin].
  - split.
    + intros j q Hj. apply lookup_snoc_Some in Hj as [[Hj Hq] | [-> <-]];
        [by eapply Hmin | done].
    + destruct nearestIndex as [i|]; [| done].
      destruct Hidx as (p' & Hp' & Hd & Hfin & Hties).
      exists p'. split; [by apply lookup_app_l_Some | split; [done | split; [done |]]].
      intros j q Hj Hq. apply (Hties j q Hj).
      apply lookup_lt_Some in Hp'. rewrite lookup_app_l in Hq by lia. done.
Qed.

Lemma nearestInv_loop (active : list Point3D.t) :
  nearestInv point active
    (fold_left (nearestStep point) (imap pair active) (infinity, None)).
Proof.
  induction active as [| p seen IH] using rev_ind.
  - split; [intros j q Hj; by rewrite lookup_nil in Hj | done].
  - rewrite imap_app, fold_left_app. simpl. rewrite Nat.add_0_r.
    by apply nearestInv_step.
Qed.

End NearestPoint.



(** ** Edge keys *)

Section EdgeKey.

Lemma pretty_N_char_digit d : Ascii.eqb (pretty_N_char d) "-"%char = false.
Proof. unfold pretty_N_char. by repeat case_match. Qed.

Lemma pretty_N_go_dashFree n s : dashFree s = true → dashFree (pretty_N_go n s) = true.
Proof.
  revert s. induction (N.lt_wf_0 n) as [n _ IH]. intros s Hs.
  destruct (decide (n = 0%N)) as [-> | Hn]; [by rewrite pretty_N_go_0 |].
  rewrite pretty_N_go_step by lia. apply IH.
  - apply N.div_lt; lia.
  - simpl. by rewrite pretty_N_char_digit.
Qed.

Lemma pretty_N_dashFree (n : N) : dashFree (pretty n) = true.
Proof.
  unfold pretty, pretty_N. case_decide; [done |].
  by apply pretty_N_go_dashFree.
Qed.

(** A key splits at its first dash in one way only. *)
Lemma dash_split s1 s2 t1 t2 :
  dashFree s1 = true → dashFree t1 = true →
  s1 +:+ "-" +:+ s2 = t1 +:+ "-" +:+ t2 → s1 = t1 ∧ s2 = t2.
Proof.
  revert t1. induction s1 as [| c s1 IH]; intros [| c' t1]; simpl;
    intros Hs Ht Heq.
  - by injection Heq.
  - injection Heq as <- _. done.
  - injection Heq as -> _. done.
  - injection Heq as -> Heq.
    apply andb_prop in Hs as [_ Hs]. apply andb_prop in Ht as [_ Ht].
    destruct (IH t1 Hs Ht Heq) as [-> ->]. done.
Qed.

Lemma getEdgeKey_ordered (a b : N) :
  (a ≤ b)%N → getEdgeKey a b = pretty a +:+ "-" +:+ pretty b.
Proof.
  intros Hab. unfold getEdgeKey. destruct (N.ltb_spec a b); [done |].
  by replace b with a by lia.
Qed.

End EdgeKey.

(** C5. [getEdgeKey] is symmetric, [getEdgeKey a b = getEdgeKey b a] for all
    indices, and injective on unordered pairs: two pairs given in ascending
    order with the same key are the same pair. *)
Theorem getEdgeKey_symmetric_injective :
  (∀ a b : N, getEdgeKey a b = getEdgeKey b a) ∧
  (∀ a b c d : N, (a ≤ b)%N → (c ≤ d)%N →
     getEdgeKey a b = getEdgeKey c d → a = c ∧ b = d).
Proof.
  split.
  - intros a b. unfold getEdgeKey.
    destruct (N.ltb_spec a b), (N.ltb_spec b a); try done; try lia.
    by replace b with a by lia.
  - intros a b c d Hab Hcd. rewrite !getEdgeKey_ordered by done. intros Heq.
    apply dash_split in Heq as [Ha Hb]; [| apply pretty_N_dashFree ..].
    split; by apply (inj pretty).
Qed.

Lemma getEdgeKey_symmetric_injective_witness :
  getEdgeKey 2 0 = getEdgeKey 0 2 ∧ (0%N = 0%N ∧ 2%N = 2%N).
Proof.
  split.
  - apply (proj1 getEdgeKey_symmetric_injective).
  - apply (proj2 getEdgeKey_symmetric_injective 0%N 2%N 0%N 2%N); [lia | lia |].
    reflexivity.
Defined.


(** ** Running the monad *)

Lemma run_eta {S A} (r : Run S A) : mkRun (result r) (final r) (events r) = r.
Proof. by destruct r. Qed.

Section EffLaws.

Context {S A B : Type}.

Lemma bind_ret (v : A) (k : A → Eff S B) s : bind (ret v) k s = k v s.
Proof. unfold bind, ret. simpl. apply run_eta. Qed.

Lemma bind_returns (m : Eff S A) (k : A → Eff S B) s v s' evs :
  m s = mkRun (inr v) s' evs →
  bind m k s = mkRun (result (k v s')) (final (k v s')) (evs ++ events (k v s')).
Proof. intros Hm. unfold bind. by rewrite Hm. Qed.

Lemma bind_chain (m : Eff S A) (k : A → Eff S B) s v s' evs r :
  m s = mkRun (inr v) s' evs → k v s' = r →
  bind m k s = mkRun (result r) (final r) (evs ++ events r).
Proof. intros Hm <-. by apply bind_returns. Qed.

Lemma bind_quiet (m : Eff S A) (k : A → Eff S B) s v s' :
  m s = mkRun (inr v) s' [] → bind m k s = k v s'.
Proof. intros Hm. rewrite (bind_returns _ _ _ _ _ _ Hm). apply run_eta. Qed.

Lemma bind_throws (m : Eff S A) (k : A → Eff S B) s e s' evs :
  m s = mkRun (inl e) s' evs → bind m k s = mkRun (inl e) s' evs.
Proof. intros Hm. unfold bind. by rewrite Hm. Qed.

End EffLaws.

Lemma bind_get {S B} (k : S → Eff S B) s : bind get k s = k s s.
Proof. unfold bind, get. simpl. apply run_eta. Qed.

Lemma bind_put {S B} (k : unit → Eff S B) s s' : bind (put s') k s = k tt s'.
Proof. unfold bind, put. simpl. apply run_eta. Qed.

Lemma bind_emit {S B} (k : unit → Eff S B) s ev :
  bind (emit ev) k s = mkRun (result (k tt s)) (final (k tt s)) (ev :: events (k tt s)).
Proof. reflexivity. Qed.

(** ** The triangulator adapter *)

Lemma packTriangles_fresh (tris : list N) :
  Forall (λ t, deleted t = false) (packTriangles tris).
Proof.
  assert (∀ n tris, (length tris ≤ n)%nat →
            Forall (λ t, deleted t = false) (packTriangles tris)) as Hall.
  { clear tris. induction n as [| n IH]; intros tris Hn.
    - destruct tris; [constructor | simpl in Hn; lia].
    - destruct tris as [| i0 [| i1 [| i2 rest]]]; try constructor; [done |].
      apply IH. simpl in Hn. lia. }
  by apply (Hall (length tris)).
Qed.

(** The structural loop agrees with the indexed one: triangle [k] is made of
    entries [3k], [3k+1] and [3k+2]. *)
Lemma packTriangles_lookup (tris : list N) (k : nat) i0 i1 i2 :
  tris !! (3 * k)%nat = Some i0 → tris !! (3 * k + 1)%nat = Some i1 →
  tris !! (3 * k + 2)%nat = Some i2 →
  packTriangles tris !! k = Some (mkTriangle (i0, i1, i2) false).
Proof.
  revert tris. induction k as [| k IH]; intros tris H0 H1 H2.
  - destruct tris as [| j0 [| j1 [| j2 rest]]]; simplify_eq/=. done.
  - replace (3 * S k)%nat with (S (S (S (3 * k)))) in * by lia.
    remember (3 * k)%nat as m eqn:Hm.
    destruct tris as [| j0 [| j1 [| j2 rest]]]; try discriminate.
    simpl in *. subst m. by apply IH.
Qed.

Lemma packTriangles_length (tris : list N) (n : nat) :
  length tris = (3 * n)%nat → length (packTriangles tris) = n.
Proof.
  revert tris. induction n as [| n IH]; intros tris Hlen.
  - by destruct tris.
  - destruct tris as [| j0 [| j1 [| j2 rest]]]; simpl in Hlen; try lia.
    simpl. f_equal. apply IH. lia.
Qed.

Section KernelRuns.

Variable Delaunator : list float → option (list N).

Lemma computeDelaunay_run {S} (pts : list Point3D.t) (s : S) :
  computeDelaunay Delaunator pts s =
    if (length pts <? 3)%nat then mkRun (inr []) s []
    else
      let coords := flat_map (λ p, [Point3D.x p; Point3D.y p]) pts in
      match Delaunator coords with
      | Some tris => mkRun (inr (packTriangles tris)) s [NewDelaunator coords]
      | None => mkRun (inl DelaunatorError) s [NewDelaunator coords]
      end.
Proof.
  unfold computeDelaunay. destruct (length pts <? 3)%nat; [done |].
  unfold newDelaunator, bind, emit. simpl.
  by destruct (Delaunator _).
Qed.

Lemma callOnChange_run (this : TinMesh) :
  callOnChange this =
    mkRun (inr tt) this
      match onChange this with Some cb => [OnChange cb] | None => [] end.
Proof. unfold callOnChange. rewrite bind_get. by destruct (onChange this). Qed.

Lemma setTrianglesField_run (v : list Triangle) (this : TinMesh) :
  setTrianglesField v this =
    mkRun (inr tt) (mkTinMesh (points this) v (deletedPoints this) (onChange this)) [].
Proof. reflexivity. Qed.

Lemma setDeletedPointsField_run (v : gset nat) (this : TinMesh) :
  setDeletedPointsField v this =
    mkRun (inr tt) (mkTinMesh (points this) (triangles this) v (onChange this)) [].
Proof. reflexivity. Qed.

Lemma notify_run (this : TinMesh) :
  (updateMesh >> callOnChange) this =
    mkRun (inr tt) this
      (UpdateMesh :: match onChange this with Some cb => [OnChange cb] | None => [] end).
Proof. unfold updateMesh. rewrite bind_emit, callOnChange_run. done. Qed.

Lemma regenerate_run (this : TinMesh) :
  regenerate Delaunator this =
    let notified :=
      UpdateMesh :: match onChange this with Some cb => [OnChange cb] | None => [] end in
    let install tris :=
      mkTinMesh (points this) tris (deletedPoints this) (onChange this) in
    if (length (getActivePoints this) <? 3)%nat
    then mkRun (inr tt) (install []) notified
    else
      let coords :=
        flat_map (λ p, [Point3D.x p; Point3D.y p]) (getActivePoints this) in
      match Delaunator coords with
      | Some tris =>
          mkRun (inr tt) (install (packTriangles tris)) (NewDelaunator coords :: notified)
      | None => mkRun (inl DelaunatorError) this [NewDelaunator coords]
      end.
Proof.
  unfold regenerate. rewrite bind_get. fold (getActivePoints this).
  pose proof (computeDelaunay_run (getActivePoints this) this) as Hrun.
  destruct (length (getActivePoints this) <? 3)%nat.
  - erewrite bind_chain; [| exact Hrun |].
    2: { erewrite bind_chain; [| apply setTrianglesField_run | apply notify_run]. done. }
    done.
  - simpl in Hrun. destruct (Delaunator _) as [tris |].
    + erewrite bind_chain; [| exact Hrun |].
      2: { erewrite bind_chain; [| apply setTrianglesField_run | apply notify_run]. done. }
      done.
    + by rewrite (bind_throws _ _ _ _ _ _ Hrun).
Qed.

Lemma setPoints_run (pts : list Point3D.t) (this : TinMesh) :
  setPoints Delaunator pts this =
    regenerate Delaunator (mkTinMesh pts (triangles this) ∅ (onChange this)).
Proof.
  unfold setPoints.
  rewrite (bind_quiet _ _ _ tt
             (mkTinMesh pts (triangles this) (deletedPoints this) (onChange this)))
    by done.
  by rewrite (bind_quiet _ _ _ tt (mkTinMesh pts (triangles this) ∅ (onChange this))).
Qed.

End KernelRuns.


(** ** Regeneration, replacement of the point set, rejected deletions *)

Lemma coords_agree (ps qs : list Point3D.t) :
  Forall2 (λ p q, Point3D.x p = Point3D.x q ∧ Point3D.y p = Point3D.y q) ps qs →
  length ps = length qs ∧
  flat_map (λ p, [Point3D.x p; Point3D.y p]) ps =
    flat_map (λ p, [Point3D.x p; Point3D.y p]) qs.
Proof.
  induction 1 as [| p q ps qs [Hx Hy] _ [IHlen IHcoords]]; [done |].
  simpl. rewrite Hx, Hy, IHlen, IHcoords. done.
Qed.

(** The guard [activeIndex < 0 || activeIndex >= activePoints.length]. *)
Lemma rejected_guard (i : Z) (n : nat) :
  i < 0 ∨ Z.of_nat n ≤ i → (i <? 0) || (Z.of_nat n <=? i) = true.
Proof.
  intros [Hneg | Hbig]; apply orb_true_iff.
  - left. by apply Z.ltb_lt.
  - right. by apply Z.leb_le.
Qed.

Section KernelProperties.

Variable Delaunator : list float → option (list N).

(** C6. On fewer than three points [computeDelaunay] returns the empty
    array and never reaches the Delaunator constructor (no event, whatever
    the constructor would have done); and on every input, each triangle it
    returns has [deleted = false]. *)
Theorem computeDelaunay_small_and_fresh {S} (pts : list Point3D.t) (s : S) :
  ((length pts < 3)%nat →
     computeDelaunay Delaunator pts s = mkRun (inr []) s []) ∧
  (∀ tris, result (computeDelaunay Delaunator pts s) = inr tris →
     Forall (λ t, deleted t = false) tris).
Proof.
  rewrite computeDelaunay_run. split.
  - intros Hlen. apply Nat.ltb_lt in Hlen. by rewrite Hlen.
  - intros tris. destruct (length pts <? 3)%nat; simpl.
    + intros [= <-]. constructor.
    + destruct (Delaunator _); simpl; [| done].
      intros [= <-]. apply packTriangles_fresh.
Qed.

(** C7. Two point arrays of the same length that agree position by
    position on [x] and [y] are triangulated alike, whatever their [z]:
    same outcome, same triangles, same call to the capability. *)
Theorem computeDelaunay_ignores_z {S} (ps qs : list Point3D.t) (s : S) :
  Forall2 (λ p q, Point3D.x p = Point3D.x q ∧ Point3D.y p = Point3D.y q) ps qs →
  computeDelaunay Delaunator ps s = computeDelaunay Delaunator qs s.
Proof.
  intros Hxy. apply coords_agree in Hxy as [Hlen Hcoords].
  rewrite !computeDelaunay_run. simpl. by rewrite Hlen, Hcoords.
Qed.

(** C1 (as the code has it). When the capability throws during
    [regenerate], the object is left exactly as it was. When it throws
    during [setPoints], [triangles] is left as it was and nothing of the
    failed triangulation is installed, but [points] already holds the new
    array and [deletedPoints] is already empty. *)
Theorem triangulation_failure_state (this : TinMesh) (pts : list Point3D.t) (e : Exn) :
  (result (regenerate Delaunator this) = inl e →
     final (regenerate Delaunator this) = this) ∧
  (result (setPoints Delaunator pts this) = inl e →
     let after := final (setPoints Delaunator pts this) in
     triangles after = triangles this ∧
     points after = pts ∧ deletedPoints after = ∅ ∧
     onChange after = onChange this).
Proof.
  assert (∀ s, result (regenerate Delaunator s) = inl e →
               final (regenerate Delaunator s) = s) as Hregen.
  { intros s. rewrite regenerate_run. simpl.
    destruct (length (getActivePoints s) <? 3)%nat; [done |].
    by destruct (Delaunator _). }
  split; [apply Hregen |].
  rewrite setPoints_run. intros Hthrown after. subst after.
  by rewrite (Hregen _ Hthrown).
Qed.

(** C9. With the capability a function of the coordinates it is given:
    a second [regenerate] on the state the first one left changes nothing
    and ends the same way; what [regenerate] installs depends on [points]
    and [deletedPoints] only; and [setPoints(P)] empties [deletedPoints],
    so that a second [setPoints(P)] leaves the very same object. *)
Theorem regenerate_idempotent (this other : TinMesh) (pts : list Point3D.t) :
  (let first := regenerate Delaunator this in
   let second := regenerate Delaunator (final first) in
   result second = result first ∧ final second = final first ∧
   events second = events first) ∧
  (points other = points this → deletedPoints other = deletedPoints this →
   result (regenerate Delaunator other) = result (regenerate Delaunator this) ∧
   (result (regenerate Delaunator this) = inr tt →
    triangles (final (regenerate Delaunator other)) =
      triangles (final (regenerate Delaunator this)))) ∧
  (let first := setPoints Delaunator pts this in
   let second := setPoints Delaunator pts (final first) in
   points (final first) = pts ∧ deletedPoints (final first) = ∅ ∧
   result second = result first ∧ final second = final first).
Proof.
  assert (∀ s, regenerate Delaunator (final (regenerate Delaunator s)) =
               regenerate Delaunator s) as Hagain.
  { intros s.
    rewrite (regenerate_run Delaunator s). cbv zeta.
    destruct (length (getActivePoints s) <? 3)%nat eqn:Hlen;
      [| destruct (Delaunator _) as [tris |] eqn:Hd];
      cbn [final]; rewrite regenerate_run; cbv zeta;
      unfold getActivePoints in *; cbn [points deletedPoints onChange];
      rewrite Hlen, ?Hd; done. }
  split; [| split].
  - cbv zeta. by rewrite Hagain.
  - intros Hpts Hdel. rewrite !regenerate_run. unfold getActivePoints.
    rewrite Hpts, Hdel. simpl.
    destruct (length _ <? 3)%nat; [done |].
    by destruct (Delaunator _).
  - cbv zeta. rewrite !setPoints_run.
    set (fresh := mkTinMesh pts (triangles this) ∅ (onChange this)).
    assert (points (final (regenerate Delaunator fresh)) = pts ∧
            deletedPoints (final (regenerate Delaunator fresh)) = ∅ ∧
            onChange (final (regenerate Delaunator fresh)) = onChange this)
      as (Hpts & Hdel & Hcb).
    { rewrite regenerate_run. simpl.
      destruct (length (getActivePoints fresh) <? 3)%nat; [done |].
      by destruct (Delaunator _). }
    split; [done | split; [done |]].
    replace (mkTinMesh pts (triangles (final (regenerate Delaunator fresh))) ∅
               (onChange (final (regenerate Delaunator fresh))))
      with (final (regenerate Delaunator fresh)).
    + by rewrite Hagain.
    + destruct (final (regenerate Delaunator fresh)). simpl in *. congruence.
Qed.

End KernelProperties.


(** ** [deleteEdge] *)

Lemma trianglesWithEdge_elem (tris : list Triangle) (k : string) (i : Z) :
  i ∈ trianglesWithEdge tris k ↔
  ∃ pos t, i = Z.of_nat pos ∧ tris !! pos = Some t ∧ deleted t = false ∧
           existsb (λ e, String.eqb (Edge.key e) k) (getTriangleEdges t) = true.
Proof.
  unfold trianglesWithEdge. rewrite list_elem_of_filter, elem_of_lookup_imap. split.
  - intros (Hpos & pos & t & Hi & Ht). exists pos, t.
    destruct (deleted t); [exfalso; lia |].
    destruct (existsb _ _); [done | exfalso; lia].
  - intros (pos & t & -> & Ht & Hdel & Hedge). split; [lia |].
    exists pos, t. by rewrite Hdel, Hedge.
Qed.

Lemma trianglesWithEdge_in_range (tris : list Triangle) (k : string) :
  Forall (λ i, 0 ≤ i < Z.of_nat (length tris)) (trianglesWithEdge tris k).
Proof.
  apply Forall_forall. intros i Hi.
  apply trianglesWithEdge_elem in Hi as (pos & t & -> & Ht & _).
  apply lookup_lt_Some in Ht. lia.
Qed.

Lemma markDeleted_run (this : TinMesh) (i : Z) :
  0 ≤ i < Z.of_nat (length (triangles this)) →
  markDeleted i this =
    mkRun (inr tt)
      (mkTinMesh (points this) (alter flagDeleted (Z.to_nat i) (triangles this))
         (deletedPoints this) (onChange this)) [].
Proof.
  intros [Hlo Hhi]. unfold markDeleted. rewrite bind_get.
  rewrite (proj2 (Z.leb_le 0 i) Hlo).
  destruct (lookup_lt_is_Some_2 (triangles this) (Z.to_nat i)) as [t Ht]; [lia |].
  rewrite Ht, setTrianglesField_run. do 2 f_equal.
  apply list_eq. intros pos. rewrite list_lookup_insert, list_lookup_alter.
  apply lookup_lt_Some in Ht as Hlt.
  destruct (decide (Z.to_nat i = pos)) as [<- |].
  - rewrite decide_True by done. by rewrite Ht.
  - by rewrite decide_False by tauto.
Qed.

Lemma forEach_markDeleted (positions : list Z) (this : TinMesh) :
  Forall (λ i, 0 ≤ i < Z.of_nat (length (triangles this))) positions →
  forEach positions markDeleted this =
    mkRun (inr tt)
      (mkTinMesh (points this)
         (foldl (λ tris i, alter flagDeleted (Z.to_nat i) tris) (triangles this) positions)
         (deletedPoints this) (onChange this)) [].
Proof.
  revert this. induction positions as [| i rest IH]; intros this Hrange.
  - by destruct this.
  - apply Forall_cons in Hrange as [Hi Hrest]. simpl.
    rewrite (bind_quiet _ _ _ _ _ (markDeleted_run this i Hi)).
    rewrite IH; [done |]. simpl. by rewrite length_alter.
Qed.

Lemma flagged_lookup (positions : list Z) (tris : list Triangle) (pos : nat) :
  Forall (λ i, 0 ≤ i) positions →
  foldl (λ tris i, alter flagDeleted (Z.to_nat i) tris) tris positions !! pos =
    if bool_decide (Z.of_nat pos ∈ positions)
    then flagDeleted <$> tris !! pos else tris !! pos.
Proof.
  revert tris. induction positions as [| i rest IH]; intros tris Hpos; [done |].
  apply Forall_cons in Hpos as [Hi Hrest]. simpl. rewrite IH by done.
  rewrite list_lookup_alter.
  destruct (decide (Z.to_nat i = pos)) as [<- | Hne].
  - rewrite Z2Nat.id by done.
    rewrite (bool_decide_true (i ∈ i :: rest)) by (apply elem_of_cons; by left).
    destruct (bool_decide (i ∈ rest)); [| done].
    by destruct (tris !! Z.to_nat i).
  - assert (Z.of_nat pos ∈ i :: rest ↔ Z.of_nat pos ∈ rest) as Hiff.
    { rewrite elem_of_cons. split; [intros [? |]; [lia | done] | auto]. }
    by rewrite (bool_decide_ext _ _ Hiff).
Qed.

Lemma deleteEdge_run (k : string) (this : TinMesh) :
  deleteEdge k this =
    mkRun (inr tt)
      (mkTinMesh (points this)
         (foldl (λ tris i, alter flagDeleted (Z.to_nat i) tris) (triangles this)
            (trianglesWithEdge (triangles this) k))
         (deletedPoints this) (onChange this))
      (UpdateMesh :: match onChange this with Some cb => [OnChange cb] | None => [] end).
Proof.
  unfold deleteEdge. rewrite bind_get.
  erewrite bind_chain;
    [| apply forEach_markDeleted, trianglesWithEdge_in_range | apply notify_run].
  done.
Qed.

(** C4. [deleteEdge] returns normally in every state and for every key.
    Each position that [trianglesWithEdge] reported for the key before the
    call holds a triangle with [deleted = true] afterwards; the triangle at
    every other position is the one that was there; no triangle changes its
    vertex indices and the array keeps its length; [points] and
    [deletedPoints] are as before; and [updateMesh] and the [onChange]
    callback run whether or not the key matched a triangle. *)
Theorem deleteEdge_spec (this : TinMesh) (k : string) :
  let run := deleteEdge k this in
  let after := final run in
  result run = inr tt ∧
  (∀ i, i ∈ trianglesWithEdge (triangles this) k →
     ∃ t, triangles after !! Z.to_nat i = Some t ∧ deleted t = true) ∧
  (∀ pos t, triangles this !! pos = Some t →
     Z.of_nat pos ∉ trianglesWithEdge (triangles this) k →
     triangles after !! pos = Some t) ∧
  (∀ pos t, triangles this !! pos = Some t →
     indices <$> triangles after !! pos = Some (indices t)) ∧
  length (triangles after) = length (triangles this) ∧
  points after = points this ∧
  deletedPoints after = deletedPoints this ∧
  onChange after = onChange this ∧
  events run =
    UpdateMesh :: match onChange this with Some cb => [OnChange cb] | None => [] end.
Proof.
  intros run after. subst after run. rewrite deleteEdge_run. cbn [result final events
    points triangles deletedPoints onChange].
  pose proof (trianglesWithEdge_in_range (triangles this) k) as Hrange.
  assert (Forall (λ i, 0 ≤ i) (trianglesWithEdge (triangles this) k)) as Hpos.
  { eapply Forall_impl; [exact Hrange |]. simpl. lia. }
  split; [done |]. split; [| split; [| split; [| split]]].
  - intros i Hi. rewrite flagged_lookup by done.
    rewrite Forall_forall in Hrange. specialize (Hrange i Hi).
    rewrite Z2Nat.id by lia. rewrite bool_decide_true by done.
    destruct (lookup_lt_is_Some_2 (triangles this) (Z.to_nat i)) as [t Ht]; [lia |].
    rewrite Ht. by exists (flagDeleted t).
  - intros pos t Ht Hout. rewrite flagged_lookup by done.
    by rewrite bool_decide_false.
  - intros pos t Ht. rewrite flagged_lookup by done.
    case_bool_decide; by rewrite Ht.
  - generalize (trianglesWithEdge (triangles this) k) as positions.
    generalize (triangles this) as tris.
    intros tris positions. revert tris.
    induction positions as [| i rest IH]; intros tris; [done |].
    simpl. by rewrite IH, length_alter.
  - done.
Qed.


(** ** [deletePointByActiveIndex] *)

(** The filter of [getActivePoints] keeps the points whose raw indices
    [activeRawIndices] lists, in the same order. *)
Lemma filterIndexed_raw (d : gset nat) (xs : list Point3D.t) (a : nat) :
  Forall2 (λ r p, (a ≤ r)%nat ∧ xs !! (r - a)%nat = Some p)
    (filter (λ i, i ∉ d) (seq a (length xs)))
    (filterIndexed (λ _ i, negb (bool_decide (i ∈ d))) a xs).
Proof.
  revert a. induction xs as [| v rest IH]; intros a; [constructor |].
  assert (Forall2 (λ r p, (a ≤ r)%nat ∧ (v :: rest) !! (r - a)%nat = Some p)
            (filter (λ i, i ∉ d) (seq (S a) (length rest)))
            (filterIndexed (λ _ i, negb (bool_decide (i ∈ d))) (S a) rest)) as Hrest.
  { eapply Forall2_impl; [apply IH |]. intros r p [Hr Hp]. split; [lia |].
    replace (r - a)%nat with (S (r - S a)) by lia. done. }
  simpl. rewrite filter_cons. destruct (decide (a ∉ d)) as [Hin | Hin].
  - rewrite bool_decide_false by done. simpl. constructor; [| done].
    split; [done |]. by rewrite Nat.sub_diag.
  - rewrite bool_decide_true by (by apply dec_stable). done.
Qed.

Lemma getActivePoints_raw (this : TinMesh) :
  Forall2 (λ r p, points this !! r = Some p)
    (activeRawIndices this) (getActivePoints this).
Proof.
  eapply Forall2_impl; [apply filterIndexed_raw |].
  intros r p [_ Hp]. by rewrite Nat.sub_0_r in Hp.
Qed.

Lemma getActivePoints_length (this : TinMesh) :
  length (getActivePoints this) = length (activeRawIndices this).
Proof. symmetry. eapply Forall2_length, getActivePoints_raw. Qed.

(** Marking one more raw index removes exactly one entry of the projection. *)
Lemma not_marked (d : gset nat) (r x : nat) : x ∉ {[r]} ∪ d ↔ x ≠ r ∧ x ∉ d.
Proof. by rewrite not_elem_of_union, not_elem_of_singleton. Qed.

Lemma filter_marked_absent (d : gset nat) (r : nat) (l : list nat) :
  r ∉ l → filter (λ i, i ∉ {[r]} ∪ d) l = filter (λ i, i ∉ d) l.
Proof.
  induction l as [| x l IH]; intros Hr; [done |].
  apply not_elem_of_cons in Hr as [Hne Hr]. rewrite !filter_cons, IH by done.
  destruct (decide (x ∉ d)) as [Hx | Hx].
  - rewrite decide_True; [done |]. apply not_marked. split; [congruence | done].
  - rewrite decide_False; [done |]. rewrite not_marked. tauto.
Qed.

Lemma filter_marked_length (d : gset nat) (r : nat) (l : list nat) :
  NoDup l → r ∈ l → r ∉ d →
  (length (filter (λ i, i ∉ {[r]} ∪ d) l) + 1)%nat = length (filter (λ i, i ∉ d) l).
Proof.
  induction 1 as [| x l Hx Hnd IH]; intros Hr Hd; [by apply elem_of_nil in Hr |].
  rewrite !filter_cons. destruct (decide (x = r)) as [-> | Hne].
  - rewrite decide_False by (rewrite not_marked; tauto).
    rewrite decide_True by done.
    rewrite filter_marked_absent by done. simpl. lia.
  - apply elem_of_cons in Hr as [-> | Hr]; [done |].
    destruct (decide (x ∉ d)) as [Hxd | Hxd].
    + rewrite decide_True by (by apply not_marked).
      simpl. rewrite <- IH by done. lia.
    + rewrite decide_False by (rewrite not_marked; tauto). by apply IH.
Qed.

(** The scan stops at the raw index that holds active position
    [activeIndex - count] among the indices still to visit. *)
Lemma deleteScan_run (activeIndex : Z) (this : TinMesh) (n a : nat) (count : Z) (r : nat) :
  count ≤ activeIndex →
  filter (λ i, i ∉ deletedPoints this) (seq a n) !! Z.to_nat (activeIndex - count) = Some r →
  deleteScan activeIndex count (seq a n) this =
    mkRun (inr tt)
      (mkTinMesh (points this) (triangles this) ({[r]} ∪ deletedPoints this)
         (onChange this)) [].
Proof.
  revert a count. induction n as [| n IH]; intros a count Hcount Hr; [done |].
  simpl in *. rewrite bind_get. rewrite filter_cons in Hr.
  destruct (decide (a ∉ deletedPoints this)) as [Hin | Hin].
  - rewrite bool_decide_false by done. simpl.
    destruct (Z.eqb_spec count activeIndex) as [-> | Hne].
    + rewrite Z.sub_diag in Hr. simpl in Hr. by injection Hr as ->.
    + apply IH; [lia |].
      replace (Z.to_nat (activeIndex - count)) with (S (Z.to_nat (activeIndex - (count + 1))))
        in Hr by lia.
      done.
  - rewrite bool_decide_true by (by apply dec_stable). simpl. by apply IH.
Qed.

Section DeletePoint.

Variable Delaunator : list float → option (list N).

(** C3. An active index below zero, or at or beyond the number of active
    points, makes [deletePointByActiveIndex] return at once: the object is
    unchanged, nothing is thrown and nothing is notified. *)
Theorem deletePointByActiveIndex_out_of_range (this : TinMesh) (i : Z) :
  i < 0 ∨ Z.of_nat (length (getActivePoints this)) ≤ i →
  deletePointByActiveIndex Delaunator i this = mkRun (inr tt) this [].
Proof.
  intros Hout. unfold deletePointByActiveIndex.
  rewrite bind_get, rejected_guard by done.
  reflexivity.
Qed.

(** C2. For a valid active index [i], [deletePointByActiveIndex] adds to
    [deletedPoints] exactly the raw index [r] that held active position
    [i], and the active projection loses one element (the point at [r]).
    The call returns normally unless the Delaunator constructor throws on
    the new projection; when it returns, [triangles] is what
    [computeDelaunay] made of the new projection, so every triangle in it
    has [deleted = false], whatever flags the old array carried. *)
Theorem deletePointByActiveIndex_valid (this : TinMesh) (i : Z) :
  0 ≤ i < Z.of_nat (length (getActivePoints this)) →
  let run := deletePointByActiveIndex Delaunator i this in
  let after := final run in
  ∃ r,
    activeRawIndices this !! Z.to_nat i = Some r ∧
    getActivePoints this !! Z.to_nat i = points this !! r ∧
    (r ∉ deletedPoints this) ∧
    deletedPoints after = {[r]} ∪ deletedPoints this ∧
    points after = points this ∧
    (length (getActivePoints after) + 1)%nat = length (getActivePoints this) ∧
    (result run = inr tt ↔
       ((length (getActivePoints after) < 3)%nat ∨
        is_Some (Delaunator
                   (flat_map (λ p, [Point3D.x p; Point3D.y p]) (getActivePoints after))))) ∧
    (result run = inr tt →
       result (computeDelaunay Delaunator (getActivePoints after) tt) =
         inr (triangles after) ∧
       Forall (λ t, deleted t = false) (triangles after)).
Proof.
  intros [Hlo Hhi] run after.
  destruct (lookup_lt_is_Some_2 (activeRawIndices this) (Z.to_nat i)) as [r Hr].
  { rewrite <- getActivePoints_length. lia. }
  exists r.
  assert (r ∈ activeRawIndices this) as Hmem by (by eapply list_elem_of_lookup_2).
  apply list_elem_of_filter in Hmem as [Hfree Hseq].
  set (marked := mkTinMesh (points this) (triangles this)
                   ({[r]} ∪ deletedPoints this) (onChange this)).
  assert (run = regenerate Delaunator marked) as Hrun.
  { subst run. unfold deletePointByActiveIndex. rewrite bind_get.
    replace ((i <? 0) || (Z.of_nat (length (getActivePoints this)) <=? i)) with false
      by (symmetry; apply orb_false_iff; split; [apply Z.ltb_ge | apply Z.leb_gt]; lia).
    rewrite (bind_quiet _ _ _ tt marked); [done |].
    apply deleteScan_run; [done |]. by rewrite Z.sub_0_r. }
  assert ((length (getActivePoints marked) + 1)%nat = length (getActivePoints this))
    as Hless.
  { rewrite !getActivePoints_length. apply filter_marked_length; [apply NoDup_seq | done ..]. }
  assert (getActivePoints after = getActivePoints marked ∧
          deletedPoints after = {[r]} ∪ deletedPoints this ∧
          points after = points this) as (Hactive & Hdel & Hpts).
  { subst after. rewrite Hrun, regenerate_run. cbv zeta.
    destruct (length (getActivePoints marked) <? 3)%nat; [done |].
    by destruct (Delaunator _). }
  rewrite Hactive.
  split; [done |]. split.
  { pose proof (getActivePoints_raw this) as Hraw.
    destruct (Forall2_lookup_l _ _ _ _ _ Hraw Hr) as (p & -> & Hp). done. }
  split; [done |]. split; [done |]. split; [done |]. split; [done |].
  subst after. rewrite Hrun, regenerate_run, computeDelaunay_run. cbv zeta.
  destruct (Nat.ltb_spec (length (getActivePoints marked)) 3) as [Hsmall | Hlarge].
  - cbn [result final triangles]. split; [by split; [left |] |].
    intros _. split; [done | constructor].
  - destruct (Delaunator _) as [tris |]; cbn [result final triangles].
    + split; [by split; [right |] |]. intros _. split; [done |].
      apply packTriangles_fresh.
    + split; [| done]. split; [done |]. intros [? | [? ?]]; [lia | done].
Qed.

(** C10. The two silent paths differ. A rejected
    [deletePointByActiveIndex] returns before [regenerate]: no
    [updateMesh], no [onChange]. [deleteEdge] with a key that matches no
    triangle changes nothing either, yet runs [updateMesh] and invokes the
    registered [onChange]. *)
Theorem rejected_delete_is_silent (this : TinMesh) (i : Z) (k : string) (cb : Callback) :
  onChange this = Some cb →
  i < 0 ∨ Z.of_nat (length (getActivePoints this)) ≤ i →
  trianglesWithEdge (triangles this) k = [] →
  events (deletePointByActiveIndex Delaunator i this) = [] ∧
  deleteEdge k this = mkRun (inr tt) this [UpdateMesh; OnChange cb].
Proof.
  intros Hcb Hout Hnone. split.
  - unfold deletePointByActiveIndex.
    by rewrite bind_get, rejected_guard.
  - rewrite deleteEdge_run, Hnone, Hcb. simpl. rewrite <- Hcb. by destruct this.
Qed.

End DeletePoint.


(** * Further properties *)

(** ** Positions reported by the topology queries *)

Section Positions.

Context {A : Type} (g : A → bool).

Lemma positionsFrom_cons n x xs :
positionsFrom g n (x :: xs) =
  if g x then Z.of_nat n :: positionsFrom g (S n) xs else positionsFrom g (S n) xs.
Proof.
unfold positionsFrom. rewrite imap_cons, filter_cons, Nat.add_0_r.
assert (imap ((λ i t, if g t then Z.of_nat (n + i) else -1) ∘ S) xs =
        imap (λ i t, if g t then Z.of_nat (S n + i) else -1) xs) as ->.
{ apply imap_ext. intros i t _. simpl.
  by replace (n + S i)%nat with (S (n + i)) by lia. }
destruct (g x).
- by rewrite decide_True by lia.
- by rewrite decide_False by lia.
Qed.

Lemma positionsFrom_elem n xs i :
i ∈ positionsFrom g n xs ↔
∃ pos t, i = Z.of_nat (n + pos) ∧ xs !! pos = Some t ∧ g t = true.
Proof.
revert n. induction xs as [| x xs IH]; intros n.
- split; [by intros ?%elem_of_nil | by intros (pos & t & _ & ? & _)].
- rewrite positionsFrom_cons. split.
  + intros Hi. destruct (g x) eqn:Hx.
    * apply elem_of_cons in Hi as [-> | Hi].
      { exists 0%nat, x. by rewrite Nat.add_0_r. }
      apply IH in Hi as (pos & t & -> & Ht & Hg). exists (S pos), t.
      split; [f_equal; lia | done].
    * apply IH in Hi as (pos & t & -> & Ht & Hg). exists (S pos), t.
      split; [f_equal; lia | done].
  + intros ([| pos] & t & -> & Ht & Hg); simplify_eq/=.
    * rewrite Hg, Nat.add_0_r. apply elem_of_cons. by left.
    * assert (Z.of_nat (n + S pos) ∈ positionsFrom g (S n) xs) as Hin.
      { apply IH. exists pos, t. split; [f_equal; lia | done]. }
      destruct (g x); [apply elem_of_cons; by right | done].
Qed.

Lemma positionsFrom_sorted n xs : StronglySorted Z.lt (positionsFrom g n xs).
Proof.
revert n. induction xs as [| x xs IH]; intros n; [constructor |].
rewrite positionsFrom_cons. destruct (g x); [| apply IH].
constructor; [apply IH |]. apply Forall_forall. intros i Hi.
apply positionsFrom_elem in Hi as (pos & t & -> & _). lia.
Qed.

End Positions.

Lemma trianglesUsingPoint_positions (tris : list Triangle) (p : N) :
  trianglesUsingPoint tris p =
    positionsFrom (λ t, includes (indices t) p && negb (deleted t)) 0 tris.
Proof. reflexivity. Qed.

Lemma trianglesWithEdge_positions (tris : list Triangle) (k : string) :
  trianglesWithEdge tris k =
    positionsFrom (λ t, negb (deleted t) && hasKey k t) 0 tris.
Proof.
  unfold trianglesWithEdge, positionsFrom. f_equal. apply imap_ext.
  intros i t _. unfold hasKey. simpl. by destruct (deleted t).
Qed.

Lemma includes_hasVertex (t : Triangle) (p : N) :
  includes (indices t) p = true ↔ hasVertex t p.
Proof.
  unfold includes, hasVertex. destruct (indices t) as [[i0 i1] i2].
  rewrite !orb_true_iff, !N.eqb_eq. intuition congruence.
Qed.

(** X1. [trianglesUsingPoint] lists, in strictly ascending order, exactly
    the positions of the triangles that are not deleted and have the point
    index among their three vertices. *)
Theorem trianglesUsingPoint_spec (tris : list Triangle) (p : N) :
  StronglySorted Z.lt (trianglesUsingPoint tris p) ∧
  ∀ i, i ∈ trianglesUsingPoint tris p ↔
       ∃ pos t, i = Z.of_nat pos ∧ tris !! pos = Some t ∧
                deleted t = false ∧ hasVertex t p.
Proof.
  rewrite trianglesUsingPoint_positions. split; [apply positionsFrom_sorted |].
  intros i. rewrite positionsFrom_elem. split.
  - intros (pos & t & -> & Ht & Hg). apply andb_prop in Hg as [Hin Hdel].
    exists pos, t. split; [done | split; [done | split]].
    + by apply negb_true_iff.
    + by apply includes_hasVertex.
  - intros (pos & t & -> & Ht & Hdel & Hin). exists pos, t.
    split; [done | split; [done |]].
    apply andb_true_intro. split; [by apply includes_hasVertex | by rewrite Hdel].
Qed.

(** ** Edge keys and the sides of a triangle *)

Lemma getEdgeKey_swap (a b : N) : getEdgeKey a b = getEdgeKey b a.
Proof.
  unfold getEdgeKey. destruct (N.ltb_spec a b), (N.ltb_spec b a); try done; try lia.
  by replace b with a by lia.
Qed.

Lemma getEdgeKey_min_max (a b : N) :
  getEdgeKey a b = pretty (N.min a b) +:+ "-" +:+ pretty (N.max a b).
Proof.
  unfold getEdgeKey. destruct (N.ltb_spec a b).
  - by rewrite N.min_l, N.max_r by lia.
  - by rewrite N.min_r, N.max_l by lia.
Qed.

Lemma getEdgeKey_eq_iff (a b c d : N) :
  getEdgeKey a b = getEdgeKey c d ↔ (a = c ∧ b = d) ∨ (a = d ∧ b = c).
Proof.
  split.
  - rewrite !getEdgeKey_min_max. intros Heq.
    apply dash_split in Heq as [Hmin Hmax]; [| apply pretty_N_dashFree ..].
    apply (inj pretty) in Hmin. apply (inj pretty) in Hmax. lia.
  - intros [[-> ->] | [-> ->]]; [done | apply getEdgeKey_swap].
Qed.

Lemma hasKey_hasSide (t : Triangle) (a b : N) :
  hasKey (getEdgeKey a b) t = true ↔ hasSide t a b.
Proof.
  unfold hasKey, hasSide, getTriangleEdges. destruct (indices t) as [[i0 i1] i2].
  simpl. rewrite !orb_true_iff, !String.eqb_eq, !getEdgeKey_eq_iff.
  intuition congruence.
Qed.

(** X2. [trianglesWithEdge] answers in strictly ascending order for every
    key; for the key of a pair of indices it lists exactly the positions of
    the triangles that are not deleted and have that unordered pair as one
    of their three sides, whichever way round the pair or the side is
    given. *)
Theorem trianglesWithEdge_spec (tris : list Triangle) :
  (∀ k, StronglySorted Z.lt (trianglesWithEdge tris k)) ∧
  (∀ a b i, i ∈ trianglesWithEdge tris (getEdgeKey a b) ↔
            ∃ pos t, i = Z.of_nat pos ∧ tris !! pos = Some t ∧
                     deleted t = false ∧ hasSide t a b).
Proof.
  split.
  - intros k. rewrite trianglesWithEdge_positions. apply positionsFrom_sorted.
  - intros a b i. rewrite trianglesWithEdge_positions, positionsFrom_elem. split.
    + intros (pos & t & -> & Ht & Hg). apply andb_prop in Hg as [Hdel Hkey].
      exists pos, t. split; [done | split; [done | split]].
      * by apply negb_true_iff.
      * by apply hasKey_hasSide.
    + intros (pos & t & -> & Ht & Hdel & Hside). exists pos, t.
      split; [done | split; [done |]].
      apply andb_true_intro. split; [by rewrite Hdel | by apply hasKey_hasSide].
Qed.

(** ** Taking a key apart again *)

Lemma split_dashFree (s : string) : dashFree s = true → split "-" s = [s].
Proof.
  induction s as [| c s IH]; [done |]. simpl. intros Hs.
  apply andb_prop in Hs as [Hc Hs]. apply negb_true_iff in Hc.
  by rewrite Hc, IH.
Qed.

Lemma split_at_dash (s1 s2 : string) :
  dashFree s1 = true → split "-" (s1 +:+ "-" +:+ s2) = s1 :: split "-" s2.
Proof.
  induction s1 as [| c s1 IH]; [done |]. simpl. intros Hs.
  apply andb_prop in Hs as [Hc Hs]. apply negb_true_iff in Hc.
  by rewrite Hc, IH.
Qed.

(** X3. [edgeKey.split('-')], the first step of [highlightEdge], takes the
    key of any two indices apart into exactly two pieces: the decimal
    digits of the smaller index, then those of the larger one. *)
Theorem split_getEdgeKey (a b : N) :
  split "-" (getEdgeKey a b) = [pretty (N.min a b); pretty (N.max a b)].
Proof.
  rewrite getEdgeKey_min_max, split_at_dash by apply pretty_N_dashFree.
  by rewrite split_dashFree by apply pretty_N_dashFree.
Qed.


(** ** [deleteEdge], composed *)

Lemma flagDeleted_deleted (t : Triangle) : deleted t = true → flagDeleted t = t.
Proof. destruct t as [ix d]. simpl. by intros ->. Qed.

Lemma hasKey_flagDeleted (k : string) (t : Triangle) :
  hasKey k (flagDeleted t) = hasKey k t.
Proof. reflexivity. Qed.

(** The array after [deleteEdge]: every triangle with a side of that key is
    flagged, deleted or not before. *)
Lemma deleteEdge_final (k : string) (this : TinMesh) :
  final (deleteEdge k this) =
    mkTinMesh (points this)
      ((λ t, if hasKey k t then flagDeleted t else t) <$> triangles this)
      (deletedPoints this) (onChange this).
Proof.
  rewrite deleteEdge_run. cbn [final]. f_equal.
  assert (Forall (λ i, 0 ≤ i) (trianglesWithEdge (triangles this) k)) as Hpos.
  { eapply Forall_impl; [apply trianglesWithEdge_in_range |]. simpl. lia. }
  apply list_eq. intros pos. rewrite flagged_lookup, list_lookup_fmap by done.
  destruct (triangles this !! pos) as [t |] eqn:Ht; [| by case_bool_decide].
  simpl. case_bool_decide as Hin.
  - apply trianglesWithEdge_elem in Hin as (pos' & t' & Hpos' & Ht' & _ & Hkey).
    assert (pos' = pos) as -> by lia. simplify_eq. unfold hasKey. by rewrite Hkey.
  - destruct (hasKey k t) eqn:Hkey; [| done].
    destruct (deleted t) eqn:Hdel; [by rewrite flagDeleted_deleted |].
    exfalso. apply Hin, trianglesWithEdge_elem. by exists pos, t.
Qed.

Lemma trianglesWithEdge_after_deleteEdge (this : TinMesh) (k : string) :
  trianglesWithEdge (triangles (final (deleteEdge k this))) k = [].
Proof.
  apply elem_of_nil_inv. intros i Hi.
  apply trianglesWithEdge_elem in Hi as (pos & t' & _ & Ht' & Hdel & Hkey).
  rewrite deleteEdge_final in Ht'. cbn [triangles] in Ht'.
  rewrite list_lookup_fmap in Ht'.
  destruct (triangles this !! pos) as [t |]; [| done]. simpl in Ht'.
  injection Ht' as <-.
  destruct (hasKey k t) eqn:Hk; [done |]. unfold hasKey in Hk. congruence.
Qed.

(** X4. Once [deleteEdge] has run for a key, [trianglesWithEdge] reports
    no triangle for that key, and a second [deleteEdge] with the same key
    leaves the object as the first one left it (and notifies again). *)
Theorem deleteEdge_idempotent (this : TinMesh) (k : string) :
  let once := deleteEdge k this in
  trianglesWithEdge (triangles (final once)) k = [] ∧
  deleteEdge k (final once) = mkRun (inr tt) (final once) (events once).
Proof.
  intros once. subst once.
  pose proof (trianglesWithEdge_after_deleteEdge this k) as Hnone.
  split; [done |].
  rewrite (deleteEdge_run k (final (deleteEdge k this))), Hnone.
  rewrite (deleteEdge_run k this). cbn [final events points triangles deletedPoints onChange foldl].
  done.
Qed.

(** X5. Two edge deletions commute: the object is the same after
    [deleteEdge(k1); deleteEdge(k2)] as after [deleteEdge(k2); deleteEdge(k1)],
    and in it a triangle is flagged exactly when it was flagged before or
    has a side of one of the two keys. *)
Theorem deleteEdge_commutes (this : TinMesh) (k1 k2 : string) :
  final (deleteEdge k2 (final (deleteEdge k1 this))) =
    final (deleteEdge k1 (final (deleteEdge k2 this))) ∧
  ∀ pos t, triangles this !! pos = Some t →
    triangles (final (deleteEdge k2 (final (deleteEdge k1 this)))) !! pos =
      Some (mkTriangle (indices t) (deleted t || hasKey k1 t || hasKey k2 t)).
Proof.
  rewrite !deleteEdge_final. cbn [points triangles deletedPoints onChange].
  rewrite <- !list_fmap_compose. split.
  - f_equal. apply list_fmap_ext. intros _ t _. simpl.
    destruct (hasKey k1 t) eqn:H1, (hasKey k2 t) eqn:H2;
      rewrite ?hasKey_flagDeleted, ?H1, ?H2; done.
  - intros pos t Ht. rewrite list_lookup_fmap, Ht. simpl. f_equal.
    destruct (hasKey k1 t) eqn:H1; rewrite ?hasKey_flagDeleted;
      destruct (hasKey k2 t) eqn:H2; destruct t as [ix []]; done.
Qed.


(** ** The mesh across its operations *)

Lemma filterIndexed_none_deleted (a : nat) (xs : list Point3D.t) :
  filterIndexed (λ _ i, negb (bool_decide (i ∈ (∅ : gset nat)))) a xs = xs.
Proof.
  revert a. induction xs as [| x xs IH]; intros a; [done |].
  cbn [filterIndexed]. rewrite bool_decide_false by apply not_elem_of_empty.
  cbn [negb]. by rewrite IH.
Qed.

Lemma coords_length (pts : list Point3D.t) :
  (length (flat_map (λ p, [Point3D.x p; Point3D.y p]) pts) / 2)%nat = length pts.
Proof.
  assert (length (flat_map (λ p, [Point3D.x p; Point3D.y p]) pts) = (2 * length pts)%nat)
    as ->.
  { induction pts as [| p pts IH]; [done |]. simpl in *. lia. }
  rewrite Nat.mul_comm. by apply Nat.div_mul.
Qed.

Lemma packTriangles_below (n : nat) (tris : list N) :
  Forall (λ i, (N.to_nat i < n)%nat) tris → Forall (triangleBelow n) (packTriangles tris).
Proof.
  assert (∀ m tris, (length tris ≤ m)%nat → Forall (λ i, (N.to_nat i < n)%nat) tris →
            Forall (triangleBelow n) (packTriangles tris)) as Hall.
  { clear tris. induction m as [| m IH]; intros tris Hm Hin.
    - destruct tris; [constructor | simpl in Hm; lia].
    - destruct tris as [| i0 [| i1 [| i2 rest]]]; try constructor.
      + apply Forall_cons in Hin as [H0 Hin]. apply Forall_cons in Hin as [H1 Hin].
        apply Forall_cons in Hin as [H2 _]. done.
      + apply IH; [simpl in Hm; lia |].
        by do 3 apply Forall_cons in Hin as [_ Hin]. }
  by apply (Hall (length tris)).
Qed.

Section MeshRuns.

Variable Delaunator : list float → option (list N).

Lemma regenerate_fields (this : TinMesh) :
points (final (regenerate Delaunator this)) = points this ∧
deletedPoints (final (regenerate Delaunator this)) = deletedPoints this ∧
onChange (final (regenerate Delaunator this)) = onChange this.
Proof.
rewrite regenerate_run. cbv zeta.
destruct (length (getActivePoints this) <? 3)%nat; [done |].
by destruct (Delaunator _).
Qed.

Lemma regenerate_active (this : TinMesh) :
getActivePoints (final (regenerate Delaunator this)) = getActivePoints this.
Proof.
destruct (regenerate_fields this) as (Hpts & Hdel & _).
unfold getActivePoints. by rewrite Hpts, Hdel.
Qed.

(** What a [regenerate] that returns has installed. *)
Lemma regenerate_triangles (this : TinMesh) :
result (regenerate Delaunator this) = inr tt →
result (computeDelaunay Delaunator (getActivePoints this) tt) =
  inr (triangles (final (regenerate Delaunator this))).
Proof.
rewrite regenerate_run, computeDelaunay_run. cbv zeta.
destruct (length (getActivePoints this) <? 3)%nat; [done |].
by destruct (Delaunator _).
Qed.

Lemma computeDelaunay_below {S} (pts : list Point3D.t) (s : S) (tris : list Triangle) :
DelaunatorContract Delaunator →
result (computeDelaunay Delaunator pts s) = inr tris →
Forall (triangleBelow (length pts)) tris.
Proof.
intros Hcontract. rewrite computeDelaunay_run.
destruct (length pts <? 3)%nat; [intros [= <-]; constructor |].
cbv zeta. destruct (Delaunator _) as [flat |] eqn:Hflat; [| done].
intros [= <-]. apply packTriangles_below.
apply Hcontract in Hflat as [_ Hflat]. by rewrite coords_length in Hflat.
Qed.

(** A valid active index is translated to the raw index at that position
  of the projection, which is marked; then the mesh is regenerated. *)
Lemma deletePointByActiveIndex_run (this : TinMesh) (i : Z) :
0 ≤ i < Z.of_nat (length (getActivePoints this)) →
∃ r, activeRawIndices this !! Z.to_nat i = Some r ∧
     deletePointByActiveIndex Delaunator i this =
       regenerate Delaunator
         (mkTinMesh (points this) (triangles this) ({[r]} ∪ deletedPoints this)
            (onChange this)).
Proof.
intros [Hlo Hhi].
destruct (lookup_lt_is_Some_2 (activeRawIndices this) (Z.to_nat i)) as [r Hr].
{ rewrite <- getActivePoints_length. lia. }
exists r. split; [done |].
unfold deletePointByActiveIndex. rewrite bind_get.
replace ((i <? 0) || (Z.of_nat (length (getActivePoints this)) <=? i)) with false
  by (symmetry; apply orb_false_iff; split; [apply Z.ltb_ge | apply Z.leb_gt]; lia).
rewrite (bind_quiet _ _ _ tt
           (mkTinMesh (points this) (triangles this) ({[r]} ∪ deletedPoints this)
              (onChange this))); [done |].
apply deleteScan_run; [done |]. by rewrite Z.sub_0_r.
Qed.

(** Each operation keeps the soft-deleted indices inside [points]. *)
Lemma regenerate_valid (this : TinMesh) :
deletedPointsValid this → deletedPointsValid (final (regenerate Delaunator this)).
Proof.
intros Hvalid r. destruct (regenerate_fields this) as (-> & -> & _). apply Hvalid.
Qed.

Lemma setPoints_valid (this : TinMesh) (pts : list Point3D.t) :
deletedPointsValid (final (setPoints Delaunator pts this)).
Proof.
rewrite setPoints_run. apply regenerate_valid.
intros r Hr. by apply not_elem_of_empty in Hr.
Qed.

Lemma deletePointByActiveIndex_valid_indices (this : TinMesh) (i : Z) :
deletedPointsValid this →
deletedPointsValid (final (deletePointByActiveIndex Delaunator i this)).
Proof.
intros Hvalid.
destruct (decide (0 ≤ i < Z.of_nat (length (getActivePoints this)))) as [Hin | Hout].
- destruct (deletePointByActiveIndex_run this i Hin) as (r & Hr & ->).
  apply regenerate_valid. intros r' Hr'. cbn [points deletedPoints] in *.
  apply elem_of_union in Hr' as [Hr' | Hr']; [| by apply Hvalid].
  apply elem_of_singleton in Hr' as ->.
  apply list_elem_of_lookup_2, list_elem_of_filter in Hr as [_ Hr].
  apply elem_of_seq in Hr. lia.
- unfold deletePointByActiveIndex. rewrite bind_get, rejected_guard by lia.
  exact Hvalid.
Qed.

(** Each operation that returns leaves triangles over active points. *)
Lemma regenerate_in_range (this : TinMesh) :
DelaunatorContract Delaunator →
result (regenerate Delaunator this) = inr tt →
trianglesInRange (final (regenerate Delaunator this)).
Proof.
intros Hcontract Hret. unfold trianglesInRange. rewrite regenerate_active.
eapply computeDelaunay_below; [done | by apply regenerate_triangles].
Qed.

Lemma deletePointByActiveIndex_in_range (this : TinMesh) (i : Z) :
DelaunatorContract Delaunator →
0 ≤ i < Z.of_nat (length (getActivePoints this)) ∨ trianglesInRange this →
result (deletePointByActiveIndex Delaunator i this) = inr tt →
trianglesInRange (final (deletePointByActiveIndex Delaunator i this)).
Proof.
intros Hcontract Hbefore.
destruct (decide (0 ≤ i < Z.of_nat (length (getActivePoints this)))) as [Hin | Hout].
- destruct (deletePointByActiveIndex_run this i Hin) as (r & _ & ->).
  by apply regenerate_in_range.
- destruct Hbefore as [Hin | Hrange]; [done |].
  unfold deletePointByActiveIndex. rewrite bind_get, rejected_guard by lia.
  done.
Qed.

End MeshRuns.

Lemma deleteEdge_in_range (this : TinMesh) (k : string) :
  trianglesInRange this → trianglesInRange (final (deleteEdge k this)).
Proof.
  unfold trianglesInRange. intros Hrange. rewrite deleteEdge_final.
  cbn [triangles]. unfold getActivePoints in *. cbn [points deletedPoints].
  apply Forall_fmap. eapply Forall_impl; [exact Hrange |].
  intros t Ht. simpl. by destruct (hasKey k t).
Qed.

(** Marking the raw index at position [k] of the projection deletes
    position [k] from it. *)
Lemma filter_marked_delete (d : gset nat) (r k : nat) (l : list nat) :
  NoDup l → filter (λ i, i ∉ d) l !! k = Some r →
  filter (λ i, i ∉ {[r]} ∪ d) l = delete k (filter (λ i, i ∉ d) l).
Proof.
  intros Hnd. revert k. induction Hnd as [| x l Hx Hnd IH]; intros k Hk; [done |].
  rewrite !filter_cons in *. destruct (decide (x ∉ d)) as [Hxd | Hxd].
  - destruct k as [| k]; simpl in Hk.
    + injection Hk as ->. rewrite decide_False by (rewrite not_marked; tauto).
      simpl. by apply filter_marked_absent.
    + assert (r ∈ l) as Hr.
      { apply list_elem_of_lookup_2 in Hk. by apply list_elem_of_filter in Hk as [_ ?]. }
      rewrite decide_True by (apply not_marked; split; [congruence | done]).
      simpl. f_equal. by apply IH.
  - rewrite decide_False by (rewrite not_marked; tauto). by apply IH.
Qed.

Lemma Forall2_delete_functional {A B} (R : A → B → Prop) (k : nat)
    (l : list A) (xs ys : list B) :
  (∀ a b b', R a b → R a b' → b = b') →
  Forall2 R l xs → Forall2 R (delete k l) ys → ys = delete k xs.
Proof.
  intros Hfun Hxs. revert k ys. induction Hxs as [| a b l xs Hab Hxs IH]; intros k ys Hys.
  - destruct k; by apply Forall2_nil_inv_l in Hys.
  - destruct k as [| k]; simpl in *.
    + clear IH. revert ys Hys. induction Hxs as [| a' b' l xs Hab' Hxs IH']; intros ys Hys.
      * by apply Forall2_nil_inv_l in Hys.
      * apply Forall2_cons_inv_l in Hys as (y & ys' & Hy & Hys' & ->).
        f_equal; [by eapply Hfun | by apply IH'].
    + apply Forall2_cons_inv_l in Hys as (y & ys' & Hy & Hys' & ->).
      f_equal; [by eapply Hfun | by apply IH].
Qed.


Section MeshProperties.

Variable Delaunator : list float → option (list N).

(** X6. However [setPoints] ends, [points] is the new array,
  [deletedPoints] is empty and the active projection is the whole new
  array. It returns normally exactly when the array has fewer than three
  points or the Delaunator constructor succeeds on its coordinates, and
  [triangles] is then what [computeDelaunay] makes of the array. *)
Theorem setPoints_spec (this : TinMesh) (pts : list Point3D.t) :
let run := setPoints Delaunator pts this in
points (final run) = pts ∧
deletedPoints (final run) = ∅ ∧
getActivePoints (final run) = pts ∧
(result run = inr tt ↔
   ((length pts < 3)%nat ∨
    is_Some (Delaunator (flat_map (λ p, [Point3D.x p; Point3D.y p]) pts)))) ∧
(result run = inr tt →
   result (computeDelaunay Delaunator pts tt) = inr (triangles (final run))).
Proof.
intros run. subst run. rewrite setPoints_run.
set (fresh := mkTinMesh pts (triangles this) ∅ (onChange this)).
assert (getActivePoints fresh = pts) as Hactive by apply filterIndexed_none_deleted.
destruct (regenerate_fields Delaunator fresh) as (Hpts & Hdel & _).
split; [done |]. split; [done |]. split.
{ by rewrite regenerate_active. }
split.
- rewrite regenerate_run, Hactive. cbv zeta.
  destruct (Nat.ltb_spec (length pts) 3) as [Hsmall | Hlarge].
  + split; [by left | done].
  + destruct (Delaunator _) as [tris |]; cbn [result].
    * split; [by right | done].
    * split; [done |]. intros [? | [? ?]]; [lia | done].
- intros Hret. rewrite <- Hactive at 1. by apply regenerate_triangles.
Qed.

(** X7. Every soft-deleted raw index stays a position of [points]: each
  of the four mutating operations keeps that, however it ends. *)
Theorem deletedPointsValid_preserved (this : TinMesh) (pts : list Point3D.t)
  (k : string) (i : Z) :
deletedPointsValid this →
deletedPointsValid (final (setPoints Delaunator pts this)) ∧
deletedPointsValid (final (regenerate Delaunator this)) ∧
deletedPointsValid (final (deleteEdge k this)) ∧
deletedPointsValid (final (deletePointByActiveIndex Delaunator i this)).
Proof.
intros Hvalid. split; [| split; [| split]].
- apply setPoints_valid.
- by apply regenerate_valid.
- rewrite deleteEdge_final. exact Hvalid.
- by apply deletePointByActiveIndex_valid_indices.
Qed.

(** X8. With a capability that answers three indices per triangle, each
  below the number of points it was given: [setPoints], [regenerate] and
  a [deletePointByActiveIndex] with a valid index that return normally
  leave every triangle referring to points of the current active
  projection, from whatever state they start; [deleteEdge] and a
  rejected [deletePointByActiveIndex] keep that when it held before. *)
Theorem trianglesInRange_preserved (this : TinMesh) (pts : list Point3D.t)
  (k : string) (i : Z) :
DelaunatorContract Delaunator →
(result (setPoints Delaunator pts this) = inr tt →
   trianglesInRange (final (setPoints Delaunator pts this))) ∧
(result (regenerate Delaunator this) = inr tt →
   trianglesInRange (final (regenerate Delaunator this))) ∧
(trianglesInRange this → trianglesInRange (final (deleteEdge k this))) ∧
(0 ≤ i < Z.of_nat (length (getActivePoints this)) ∨ trianglesInRange this →
 result (deletePointByActiveIndex Delaunator i this) = inr tt →
   trianglesInRange (final (deletePointByActiveIndex Delaunator i this))).
Proof.
intros Hcontract. split; [| split; [| split]].
- rewrite setPoints_run. by apply regenerate_in_range.
- by apply regenerate_in_range.
- apply deleteEdge_in_range.
- by apply deletePointByActiveIndex_in_range.
Qed.

(** X9. For a valid active index, the active projection after
  [deletePointByActiveIndex] is the projection before with that one
  position taken out: the other points keep their order, and every later
  point moves down by one. This holds however the call ends. *)
Theorem deletePointByActiveIndex_removes (this : TinMesh) (i : Z) :
0 ≤ i < Z.of_nat (length (getActivePoints this)) →
getActivePoints (final (deletePointByActiveIndex Delaunator i this)) =
  delete (Z.to_nat i) (getActivePoints this).
Proof.
intros Hin.
destruct (deletePointByActiveIndex_run Delaunator this i Hin) as (r & Hr & ->).
rewrite regenerate_active.
set (marked := mkTinMesh _ _ _ _).
apply (Forall2_delete_functional (λ r p, points this !! r = Some p) _
         (activeRawIndices this)).
- intros a b b' Hb Hb'. congruence.
- apply getActivePoints_raw.
- replace (delete (Z.to_nat i) (activeRawIndices this)) with (activeRawIndices marked).
  + apply (getActivePoints_raw marked).
  + apply filter_marked_delete; [apply NoDup_seq | done].
Qed.

(** X10. Picking then deleting, as the click handler of point mode does:
  an index that [findNearestPoint] answered is never rejected by
  [deletePointByActiveIndex]; the active projection loses exactly the
  picked point, which lay strictly within the pick radius. *)
Theorem pick_then_delete (this : TinMesh) (point : Vector3.t) (i : nat) :
findNearestPoint this point = Some i →
∃ p, getActivePoints this !! i = Some p ∧
     (sceneDistance point p <? 1.5)%float = true ∧
     getActivePoints (final (deletePointByActiveIndex Delaunator (Z.of_nat i) this)) =
       delete i (getActivePoints this).
Proof.
intros Hpick. unfold findNearestPoint in Hpick.
pose proof (nearestInv_loop point (getActivePoints this)) as Hinv.
destruct (fold_left _ _ _) as [m idx]. destruct Hinv as [_ Hidx].
destruct (m <? 1.5)%float eqn:Hnear; [| done]. subst idx.
destruct Hidx as (p & Hp & -> & _). exists p. split; [done | split; [done |]].
destruct (deletePointByActiveIndex_run Delaunator this (Z.of_nat i)) as (r & Hr & ->).
{ apply lookup_lt_Some in Hp. lia. }
rewrite Nat2Z.id in Hr. rewrite regenerate_active.
set (marked := mkTinMesh _ _ _ _).
apply (Forall2_delete_functional (λ r p, points this !! r = Some p) _
         (activeRawIndices this)).
- intros a b b' Hb Hb'. congruence.
- apply getActivePoints_raw.
- replace (delete i (activeRawIndices this)) with (activeRawIndices marked).
  + apply (getActivePoints_raw marked).
  + apply filter_marked_delete; [apply NoDup_seq | done].
Qed.

(** X11. Handing the active projection back to [setPoints], as the
  Regenerate button does once the table holds the active points, changes
  neither the active projection nor the triangulation: the call ends as
  [regenerate] would, with the same events and, when it returns, the same
  triangles; only the storage is compacted, [deletedPoints] becoming
  empty. *)
Theorem setPoints_of_active (this : TinMesh) :
let compacted := setPoints Delaunator (getActivePoints this) this in
let regenerated := regenerate Delaunator this in
result compacted = result regenerated ∧
events compacted = events regenerated ∧
getActivePoints (final compacted) = getActivePoints (final regenerated) ∧
points (final compacted) = getActivePoints this ∧
deletedPoints (final compacted) = ∅ ∧
(result regenerated = inr tt →
   triangles (final compacted) = triangles (final regenerated)).
Proof.
intros compacted regenerated. subst compacted regenerated.
rewrite setPoints_run.
set (fresh := mkTinMesh (getActivePoints this) (triangles this) ∅ (onChange this)).
assert (getActivePoints fresh = getActivePoints this) as Hactive
  by apply filterIndexed_none_deleted.
destruct (regenerate_fields Delaunator fresh) as (Hpts & Hdel & _).
rewrite !regenerate_active, Hactive, Hpts, Hdel.
rewrite !regenerate_run, Hactive. cbv zeta.
destruct (length (getActivePoints this) <? 3)%nat; [done |].
by destruct (Delaunator _).
Qed.

End MeshProperties.


(** ** [findNearestEdge] *)

Section NearestEdge.

Variables (activePoints : list Point3D.t) (point : Vector3.t).

(** The loop with [edgesSeen] is the plain loop over the first edge of
  each key. *)
Lemma edgeLoop_measureLoop (acc : EdgeScan) (edges : list Edge.t) :
match edgeLoop activePoints point acc edges with
| inl e =>
    measureLoop activePoints point (minDist acc, nearestEdge acc)
      (firstEdges (edgesSeen acc) edges) = inl e
| inr acc' =>
    measureLoop activePoints point (minDist acc, nearestEdge acc)
      (firstEdges (edgesSeen acc) edges) = inr (minDist acc', nearestEdge acc')
end.
Proof.
revert acc. induction edges as [| edge rest IH]; intros acc; [done |].
cbn [edgeLoop firstEdges]. unfold edgeStep.
destruct (bool_decide (Edge.key edge ∈ edgesSeen acc)); [apply IH |].
cbn [measureLoop]. unfold edgeDistance.
destruct (activePoints !! N.to_nat (Edge.a edge)) as [pa |]; [| done].
destruct (activePoints !! N.to_nat (Edge.b edge)) as [pb |]; [| done].
cbn [fst].
destruct (distanceToLineSegment point (toScene pa) (toScene pb) <? minDist acc)%float;
  apply (IH (mkEdgeScan _ _ _)).
Qed.

Lemma measureLoop_throws (acc : float * option string) (edges : list Edge.t) :
(∃ e, measureLoop activePoints point acc edges = inl e) ↔
∃ edge, edge ∈ edges ∧ edgeDistance activePoints point edge = None.
Proof.
revert acc. induction edges as [| edge rest IH]; intros acc.
- split; [by intros [e ?] | by intros (edge & ?%elem_of_nil & _)].
- cbn [measureLoop]. destruct (edgeDistance activePoints point edge) as [d |] eqn:Hd.
  + rewrite IH. split.
    * intros (edge' & Hin & Hnone). exists edge'. split; [by apply elem_of_cons; right | done].
    * intros (edge' & Hin & Hnone). apply elem_of_cons in Hin as [-> | Hin]; [congruence |].
      by exists edge'.
  + split; [| by exists TypeError]. intros _. exists edge.
    split; [apply elem_of_cons; by left | done].
Qed.

Lemma measureLoop_TypeError (acc : float * option string) (edges : list Edge.t) e :
measureLoop activePoints point acc edges = inl e → e = TypeError.
Proof.
revert acc. induction edges as [| edge rest IH]; intros acc; [done |].
cbn [measureLoop]. destruct (edgeDistance activePoints point edge); [apply IH |].
by intros [= <-].
Qed.

Lemma edgeInv_step (seen : list Edge.t) (acc : float * option string)
  (edge : Edge.t) (d : float) :
edgeDistance activePoints point edge = Some d →
edgeInv activePoints point seen acc →
edgeInv activePoints point (seen ++ [edge])
  (if (d <? fst acc)%float then (d, Some (Edge.key edge)) else acc).
Proof.
destruct acc as [least nearest]. intros Hd [Hmin Hidx]. cbn [fst].
destruct (d <? least)%float eqn:Hlt.
- split.
  + intros n e Hn. apply lookup_snoc_Some in Hn as [[Hn He] | [-> <-]].
    * destruct (Hmin n e He) as (d' & Hd' & Hnlt). exists d'. split; [done |].
      by apply leb_false_ltb, (ltb_below _ _ least).
    * exists d. split; [done | apply ltb_irrefl].
  + exists (length seen), edge.
    split; [by apply list_lookup_middle | split; [done | split; [done | split]]].
    * destruct nearest as [k |]; [| by subst least].
      destruct Hidx as (n & e & _ & _ & _ & Hfin & _). by eapply ltb_trans.
    * intros m e' d' Hm He' Hd'. rewrite lookup_app_l in He' by done.
      destruct (Hmin m e' He') as (d'' & Hd'' & Hnlt). simplify_eq.
      by apply (ltb_below _ _ least).
- split.
  + intros n e Hn. apply lookup_snoc_Some in Hn as [[Hn He] | [-> <-]];
      [by apply (Hmin n e) | by exists d].
  + destruct nearest as [k |]; [| done].
    destruct Hidx as (n & e & He & Hk & Hdist & Hfin & Hties).
    exists n, e. split; [by apply lookup_app_l_Some | do 3 (split; [done |])].
    intros m e' d' Hm He' Hd'. apply (Hties m e' d' Hm); [| done].
    apply lookup_lt_Some in He. by rewrite lookup_app_l in He' by lia.
Qed.

Lemma edgeInv_loop (seen edges : list Edge.t) (acc acc' : float * option string) :
edgeInv activePoints point seen acc →
measureLoop activePoints point acc edges = inr acc' →
edgeInv activePoints point (seen ++ edges) acc'.
Proof.
revert seen acc. induction edges as [| edge rest IH]; intros seen acc Hinv.
- intros [= <-]. by rewrite app_nil_r.
- cbn [measureLoop]. destruct (edgeDistance activePoints point edge) as [d |] eqn:Hd;
    [| done].
  intros Hrest.
  replace (seen ++ edge :: rest) with ((seen ++ [edge]) ++ rest)
    by (by rewrite <- app_assoc).
  eapply IH; [| exact Hrest]. by apply edgeInv_step.
Qed.

End NearestEdge.

(** What the first-edge selection keeps. *)
Lemma firstEdges_elem (seen : gset string) (edges : list Edge.t) (edge : Edge.t) :
  edge ∈ firstEdges seen edges → edge ∈ edges ∧ Edge.key edge ∉ seen.
Proof.
  revert seen. induction edges as [| e rest IH]; intros seen; [by intros ?%elem_of_nil |].
  cbn [firstEdges]. case_bool_decide as Hseen.
  - intros [Hin Hk]%IH. split; [apply elem_of_cons; by right | done].
  - intros [-> | [Hin Hk]%IH]%elem_of_cons.
    + split; [apply elem_of_cons; by left | done].
    + split; [apply elem_of_cons; by right |].
      intros Hin'. apply Hk, elem_of_union. by right.
Qed.

Lemma firstEdges_key (seen : gset string) (edges : list Edge.t) (edge : Edge.t) :
  edge ∈ edges → Edge.key edge ∉ seen →
  ∃ first, first ∈ firstEdges seen edges ∧ Edge.key first = Edge.key edge.
Proof.
  revert seen. induction edges as [| e rest IH]; intros seen; [by intros ?%elem_of_nil |].
  intros Hin Hk. cbn [firstEdges]. case_bool_decide as Hseen.
  - apply elem_of_cons in Hin as [-> | Hin]; [done |]. by apply IH.
  - destruct (decide (Edge.key e = Edge.key edge)) as [Heq | Hne].
    + exists e. split; [apply elem_of_cons; by left | done].
    + apply elem_of_cons in Hin as [-> | Hin]; [done |].
      destruct (IH ({[Edge.key e]} ∪ seen) Hin) as (first & Hfirst & Hkey).
      { intros [Hk' | Hk']%elem_of_union; [| done].
        apply elem_of_singleton in Hk'. congruence. }
      exists first. split; [apply elem_of_cons; by right | done].
Qed.

Lemma firstEdges_NoDup (seen : gset string) (edges : list Edge.t) :
  NoDup (Edge.key <$> firstEdges seen edges).
Proof.
  revert seen. induction edges as [| e rest IH]; intros seen; [constructor |].
  cbn [firstEdges]. case_bool_decide; [apply IH |].
  rewrite fmap_cons. constructor; [| apply IH].
  intros (edge & Hkey & Hin)%list_elem_of_fmap.
  apply firstEdges_elem in Hin as [_ Hk]. apply Hk, elem_of_union. left.
  by apply elem_of_singleton.
Qed.

Lemma findNearestEdge_measureLoop (this : TinMesh) (point : Vector3.t) :
  findNearestEdge this point =
    match measureLoop (getActivePoints this) point (infinity, None) (measuredEdges this) with
    | inl e => inl e
    | inr acc => inr (if (fst acc <? 2)%float then snd acc else None)
    end.
Proof.
  unfold findNearestEdge, measuredEdges, activeTriangles.
  pose proof (edgeLoop_measureLoop (getActivePoints this) point (mkEdgeScan infinity None ∅)
                (flat_map getTriangleEdges (filter (λ t, deleted t = false) (triangles this))))
    as Hloop.
  cbn [minDist nearestEdge edgesSeen] in Hloop.
  destruct (edgeLoop _ _ _ _) as [e | acc]; by rewrite Hloop.
Qed.

Lemma findNearestEdge_inv (this : TinMesh) (point : Vector3.t) (r : option string) :
  findNearestEdge this point = inr r →
  ∃ acc, edgeInv (getActivePoints this) point (measuredEdges this) acc ∧
         r = if (fst acc <? 2)%float then snd acc else None.
Proof.
  rewrite findNearestEdge_measureLoop.
  destruct (measureLoop _ _ _ _) as [e | acc] eqn:Hloop; [done |].
  intros [= <-]. exists acc. split; [| done].
  apply (edgeInv_loop _ _ [] _ (infinity, None)); [| done].
  split; [intros n e Hn; by rewrite lookup_nil in Hn | done].
Qed.

(** Every edge the loop visits is a side of a shown triangle and carries
    the key of its two ends. *)
Lemma activeEdges_elem (this : TinMesh) (edge : Edge.t) :
  edge ∈ flat_map getTriangleEdges (activeTriangles this) →
  ∃ pos t, triangles this !! pos = Some t ∧ deleted t = false ∧
           edge ∈ getTriangleEdges t ∧
           Edge.key edge = getEdgeKey (Edge.a edge) (Edge.b edge) ∧
           hasVertex t (Edge.a edge) ∧ hasVertex t (Edge.b edge).
Proof.
  intros Hin. apply list_elem_of_In, in_flat_map in Hin as (t & Ht & Hedge).
  apply list_elem_of_In, list_elem_of_filter in Ht as [Hdel Ht].
  apply list_elem_of_lookup in Ht as [pos Hpos]. apply list_elem_of_In in Hedge.
  exists pos, t. split; [done | split; [done | split; [done |]]].
  unfold getTriangleEdges, hasVertex in *. destruct (indices t) as [[i0 i1] i2].
  rewrite !elem_of_cons in Hedge.
  destruct Hedge as [-> | [-> | [-> | Hnil]]]; [| | | by apply elem_of_nil in Hnil];
    simpl; tauto.
Qed.

Lemma edgeDistance_Some (activePoints : list Point3D.t) (point : Vector3.t) (edge : Edge.t) :
  is_Some (edgeDistance activePoints point edge) ↔
  (N.to_nat (Edge.a edge) < length activePoints)%nat ∧
  (N.to_nat (Edge.b edge) < length activePoints)%nat.
Proof.
  unfold edgeDistance. rewrite <- !lookup_lt_is_Some.
  destruct (activePoints !! N.to_nat (Edge.a edge)),
           (activePoints !! N.to_nat (Edge.b edge));
    split; try (by intros [? ?]); intros [[? ?] [? ?]]; done.
Qed.

Lemma edgeDistance_None (activePoints : list Point3D.t) (point : Vector3.t) (edge : Edge.t) :
  edgeDistance activePoints point edge = None ↔
  (length activePoints ≤ N.to_nat (Edge.a edge))%nat ∨
  (length activePoints ≤ N.to_nat (Edge.b edge))%nat.
Proof.
  rewrite <- !lookup_ge_None. unfold edgeDistance.
  destruct (activePoints !! N.to_nat (Edge.a edge)),
           (activePoints !! N.to_nat (Edge.b edge)); split; try done; try tauto.
  by intros [? | ?].
Qed.

(** X12. [findNearestEdge] measures the first edge of each key among the
    sides of the triangles that are not deleted, in order. It throws, and
    then a TypeError, exactly when one of these edges has an end outside
    the active projection. When it returns, every measured edge has both
    ends inside the active projection, and it answers the key of a measured
    edge at minimum distance when that minimum is strictly below 2, the
    earliest measured one among equals, and nothing when no measured edge
    is strictly within 2. *)
Theorem findNearestEdge_spec (this : TinMesh) (point : Vector3.t) :
  let active := getActivePoints this in
  let measured := measuredEdges this in
  match findNearestEdge this point with
  | inl e =>
      e = TypeError ∧
      ∃ edge, edge ∈ measured ∧
        ((length active ≤ N.to_nat (Edge.a edge))%nat ∨
         (length active ≤ N.to_nat (Edge.b edge))%nat)
  | inr answer =>
      (∀ edge, edge ∈ measured →
         (N.to_nat (Edge.a edge) < length active)%nat ∧
         (N.to_nat (Edge.b edge) < length active)%nat) ∧
      match answer with
      | Some k =>
          ∃ n edge d, measured !! n = Some edge ∧ Edge.key edge = k ∧
            edgeDistance active point edge = Some d ∧ (d <? 2)%float = true ∧
            (∀ edge' d', edge' ∈ measured → edgeDistance active point edge' = Some d' →
               (d' <? d)%float = false) ∧
            (∀ m edge' d', (m < n)%nat → measured !! m = Some edge' →
               edgeDistance active point edge' = Some d' → (d' <=? d)%float = false)
      | None =>
          ∀ edge, edge ∈ measured →
            ∃ d, edgeDistance active point edge = Some d ∧ (d <? 2)%float = false
      end
  end.
Proof.
  intros active measured.
  destruct (findNearestEdge this point) as [e | r] eqn:Hfind.
  - rewrite findNearestEdge_measureLoop in Hfind. fold active measured in Hfind.
    destruct (measureLoop active point (infinity, None) measured) as [e' | acc] eqn:Hloop;
      [| done].
    injection Hfind as ->. split; [by eapply measureLoop_TypeError |].
    destruct (proj1 (measureLoop_throws active point (infinity, None) measured))
      as (edge & Hedge & Hnone); [by exists e |].
    exists edge. split; [done | by apply (edgeDistance_None active point)].
  - apply findNearestEdge_inv in Hfind as ([least nearest] & [Hmin Hidx] & ->).
    fold active measured in Hmin, Hidx. cbn [fst snd].
    split.
    { intros edge [m Hm]%list_elem_of_lookup.
      destruct (Hmin m edge Hm) as (d & Hd & _).
      apply (edgeDistance_Some active point). by rewrite Hd. }
    destruct (least <? 2)%float eqn:Hnear.
    + destruct nearest as [k |]; [| subst least; discriminate Hnear].
      destruct Hidx as (n & edge & Hedge & Hk & Hd & _ & Hties).
      exists n, edge, least. do 4 (split; [done |]). split; [| done].
      intros edge' d' [m Hm]%list_elem_of_lookup Hd'.
      destruct (Hmin m edge' Hm) as (d'' & Hd'' & Hnlt). by simplify_eq.
    + assert (∀ edge, edge ∈ measured →
                ∃ d, edgeDistance active point edge = Some d ∧ (d <? 2)%float = false)
        as Hnone.
      { intros edge [m Hm]%list_elem_of_lookup.
        destruct (Hmin m edge Hm) as (d & Hd & Hnlt). exists d. split; [done |].
        destruct (d <? 2)%float eqn:Hin; [| done].
        rewrite <- Hnlt. symmetry. destruct nearest as [k |].
        - destruct Hidx as (n & e & _ & _ & _ & Hfin & _).
          apply (ltb_between _ _ 2); [done | done | by eapply ltb_number].
        - subst least. by apply (ltb_trans _ 2). }
      by destruct nearest.
Qed.

Lemma findNearestEdge_no_throw (this : TinMesh) (point : Vector3.t) :
  Forall (triangleBelow (length (getActivePoints this))) (activeTriangles this) →
  ∃ r, findNearestEdge this point = inr r.
Proof.
  set (active := getActivePoints this). intros Hrange.
  rewrite findNearestEdge_measureLoop. fold active.
  destruct (measureLoop active point (infinity, None) (measuredEdges this))
    as [e | acc] eqn:Hloop; [| by eexists].
  exfalso.
  destruct (proj1 (measureLoop_throws active point (infinity, None) (measuredEdges this)))
    as (edge & Hedge & Hnone); [by exists e |].
  apply firstEdges_elem in Hedge as [Hedge _].
  apply activeEdges_elem in Hedge as (pos & t & Ht & Hdel & _ & _ & Ha & Hb).
  assert (t ∈ activeTriangles this) as Hshown.
  { apply list_elem_of_filter. split; [done | by eapply list_elem_of_lookup_2]. }
  rewrite Forall_forall in Hrange. specialize (Hrange t Hshown).
  assert (is_Some (edgeDistance active point edge)) as [d Hd]; [| congruence].
  apply edgeDistance_Some. unfold triangleBelow, hasVertex in *.
  destruct (indices t) as [[i0 i1] i2]. destruct Hrange as (H0 & H1 & H2).
  split; [destruct Ha as [-> | [-> | ->]] | destruct Hb as [-> | [-> | ->]]]; done.
Qed.

(** X13. [findNearestEdge] returns normally exactly when every triangle
    that is not deleted has its three vertices inside the active
    projection; a stale triangle array makes it throw. *)
Theorem findNearestEdge_returns_iff (this : TinMesh) (point : Vector3.t) :
  (∃ r, findNearestEdge this point = inr r) ↔
  Forall (triangleBelow (length (getActivePoints this))) (activeTriangles this).
Proof.
  split; [| apply findNearestEdge_no_throw].
  - intros [r Hr]. rewrite findNearestEdge_measureLoop in Hr.
    set (active := getActivePoints this) in *.
    apply Forall_forall. intros t Ht.
    assert (∀ a b, Edge.mk a b (getEdgeKey a b) ∈ getTriangleEdges t →
              (N.to_nat a < length active)%nat ∧ (N.to_nat b < length active)%nat)
      as Hside.
    { intros a b Hab.
      destruct (firstEdges_key ∅ (flat_map getTriangleEdges (activeTriangles this))
                  (Edge.mk a b (getEdgeKey a b))) as (first & Hfirst & Hkey).
      { apply list_elem_of_In, in_flat_map. exists t. by rewrite <- !list_elem_of_In. }
      { apply not_elem_of_empty. }
      fold (measuredEdges this) in Hfirst.
      assert (is_Some (edgeDistance active point first)) as Hsome.
      { destruct (edgeDistance active point first) eqn:Hd; [done |]. exfalso.
        destruct (proj2 (measureLoop_throws active point (infinity, None)
                           (measuredEdges this))) as [e He]; [by exists first |].
        by rewrite He in Hr. }
      apply edgeDistance_Some in Hsome as [Ha Hb].
      apply firstEdges_elem in Hfirst as [Hfirst _].
      apply activeEdges_elem in Hfirst as (_ & _ & _ & _ & _ & Hk & _).
      cbn [Edge.key] in Hkey. rewrite Hk in Hkey.
      apply getEdgeKey_eq_iff in Hkey as [[<- <-] | [<- <-]]; done. }
    unfold triangleBelow, getTriangleEdges in *. destruct (indices t) as [[i0 i1] i2].
    destruct (Hside i0 i1) as [H0 H1]; [apply elem_of_cons; by left |].
    destruct (Hside i1 i2) as [_ H2];
      [apply elem_of_cons; right; apply elem_of_cons; by left |].
    done.
Qed.


Lemma findNearestEdge_picked (this : TinMesh) (point : Vector3.t) (k : string) :
  findNearestEdge this point = inr (Some k) →
  ∃ edge, edge ∈ measuredEdges this ∧ Edge.key edge = k.
Proof.
  intros ([least nearest] & [_ Hidx] & Hk)%findNearestEdge_inv. cbn [fst snd] in Hk.
  destruct (least <? 2)%float; [| done]. subst nearest.
  destruct Hidx as (n & edge & Hedge & Hkey & _). exists edge.
  split; [by eapply list_elem_of_lookup_2 | done].
Qed.

Lemma picked_key_matches (this : TinMesh) (point : Vector3.t) (k : string) :
  findNearestEdge this point = inr (Some k) →
  trianglesWithEdge (triangles this) k ≠ [] ∧
  ∃ a b, k = getEdgeKey a b.
Proof.
  intros (edge & Hedge & <-)%findNearestEdge_picked.
  apply firstEdges_elem in Hedge as [Hedge _].
  apply activeEdges_elem in Hedge as (pos & t & Ht & Hdel & Hin & Hkey & _).
  split; [| by eauto].
  assert (Z.of_nat pos ∈ trianglesWithEdge (triangles this) (Edge.key edge)) as Hpos.
  { apply trianglesWithEdge_elem. exists pos, t. do 3 (split; [done |]).
    apply existsb_exists. exists edge. split; [by apply list_elem_of_In |].
    apply String.eqb_refl. }
  intros Hnil. rewrite Hnil in Hpos. by apply elem_of_nil in Hpos.
Qed.

(** X14. Picking then deleting an edge, as the click handler of edge mode
    does: a key that [findNearestEdge] answered is not the empty string
    (the handler's [if (edgeKey)] lets it through), [deleteEdge] flags at
    least one triangle for it, and afterwards [findNearestEdge] does not
    answer that key again, wherever the cursor is. *)
Theorem pick_edge_then_delete (this : TinMesh) (point : Vector3.t) (k : string) :
  findNearestEdge this point = inr (Some k) →
  k ≠ EmptyString ∧
  trianglesWithEdge (triangles this) k ≠ [] ∧
  ∀ point', findNearestEdge (final (deleteEdge k this)) point' ≠ inr (Some k).
Proof.
  intros Hpick. destruct (picked_key_matches this point k Hpick) as [Hsome (a & b & ->)].
  split; [| split; [done |]].
  - rewrite getEdgeKey_min_max. by destruct (pretty (N.min a b)).
  - intros point' Hagain. apply picked_key_matches in Hagain as [Hagain _].
    apply Hagain, trianglesWithEdge_after_deleteEdge.
Qed.

(** ** What [updateMesh] draws *)

Lemma scenePositions_length (pts : list Point3D.t) :
  length (scenePositions pts) = (3 * length pts)%nat.
Proof. induction pts as [| p pts IH]; [done |]. simpl in *. lia. Qed.

Lemma activeTriangles_after_deleteEdge (this : TinMesh) (k : string) :
  activeTriangles (final (deleteEdge k this)) =
    filter (λ t, hasKey k t = false) (activeTriangles this).
Proof.
  unfold activeTriangles. rewrite deleteEdge_final. cbn [triangles].
  induction (triangles this) as [| t tris IH]; [done |].
  rewrite fmap_cons, !filter_cons, IH.
  destruct (hasKey k t) eqn:Hk.
  - rewrite decide_False by done.
    destruct (decide (deleted t = false)); [| done].
    by rewrite filter_cons, decide_False by congruence.
  - destruct (decide (deleted t = false)); [| done].
    by rewrite filter_cons, decide_True by done.
Qed.

Lemma scenePositions_lookup (pts : list Point3D.t) (k : nat) (p : Point3D.t) :
  pts !! k = Some p →
  scenePositions pts !! (3 * k)%nat = Some (Point3D.x p) ∧
  scenePositions pts !! (3 * k + 1)%nat = Some (Point3D.z p) ∧
  scenePositions pts !! (3 * k + 2)%nat = Some (- Point3D.y p)%float.
Proof.
  revert k. induction pts as [| q pts IH]; intros k Hk; [done |].
  destruct k as [| k].
  - injection Hk as ->. done.
  - replace (3 * S k)%nat with (S (S (S (3 * k)))) by lia. apply (IH k Hk).
Qed.

Lemma indexBuffer_lookup (shown : list Triangle) (n : nat) (t : Triangle) (i0 i1 i2 : N) :
  shown !! n = Some t → indices t = (i0, i1, i2) →
  let buffer := flat_map (λ tri, let '(j0, j1, j2) := indices tri in [j0; j1; j2]) shown in
  buffer !! (3 * n)%nat = Some i0 ∧
  buffer !! (3 * n + 1)%nat = Some i1 ∧
  buffer !! (3 * n + 2)%nat = Some i2.
Proof.
  revert n. induction shown as [| u shown IH]; intros n Hn Hix; [done |].
  destruct n as [| n].
  - injection Hn as ->. simpl. by rewrite Hix.
  - replace (3 * S n)%nat with (S (S (S (3 * n)))) by lia.
    simpl. destruct (indices u) as [[j0 j1] j2]. apply (IH n Hn Hix).
Qed.

Lemma activeTriangles_nil (this : TinMesh) :
  activeTriangles this = [] ↔ Forall (λ t, deleted t = true) (triangles this).
Proof.
  unfold activeTriangles. induction (triangles this) as [| t tris IH].
  - split; [constructor | done].
  - rewrite filter_cons, Forall_cons. destruct (decide (deleted t = false)) as [Hshown | Hgone].
    + split; [done | intros [Hdel _]; congruence].
    + rewrite IH. apply not_false_is_true in Hgone. tauto.
Qed.

(** X15. [updateMesh] draws one marker per active point, the marker of
    active point [k] taking entries [3k], [3k+1], [3k+2] of the position
    array with the point's [x], [z] and [-y]. It draws a surface exactly
    when there are at least three active points and some triangle is not
    deleted. The surface has the markers' positions as vertices; its index
    buffer holds the three vertices of each triangle that is not deleted,
    in order, and nothing else; and when the triangles refer to active
    points, every index in it addresses the [x], [z], [-y] of an active
    point. *)
Theorem updateMeshGeometry_spec (this : TinMesh) :
  let active := getActivePoints this in
  let '(surface, markers) := updateMeshGeometry this in
  length markers = (3 * length active)%nat ∧
  (∀ k p, active !! k = Some p →
     markers !! (3 * k)%nat = Some (Point3D.x p) ∧
     markers !! (3 * k + 1)%nat = Some (Point3D.z p) ∧
     markers !! (3 * k + 2)%nat = Some (- Point3D.y p)%float) ∧
  (surface = None ↔
     ((length active < 3)%nat ∨ Forall (λ t, deleted t = true) (triangles this))) ∧
  ∀ g, surface = Some g →
    vertices g = markers ∧
    length (indexBuffer g) = (3 * length (activeTriangles this))%nat ∧
    (∀ n t i0 i1 i2, activeTriangles this !! n = Some t → indices t = (i0, i1, i2) →
       indexBuffer g !! (3 * n)%nat = Some i0 ∧
       indexBuffer g !! (3 * n + 1)%nat = Some i1 ∧
       indexBuffer g !! (3 * n + 2)%nat = Some i2) ∧
    (∀ i, i ∈ indexBuffer g ↔
          ∃ t, t ∈ triangles this ∧ deleted t = false ∧ hasVertex t i) ∧
    (trianglesInRange this →
     ∀ i, i ∈ indexBuffer g →
       ∃ p, active !! N.to_nat i = Some p ∧
            vertices g !! (3 * N.to_nat i)%nat = Some (Point3D.x p) ∧
            vertices g !! (3 * N.to_nat i + 1)%nat = Some (Point3D.z p) ∧
            vertices g !! (3 * N.to_nat i + 2)%nat = Some (- Point3D.y p)%float).
Proof.
  intros active. unfold updateMeshGeometry. fold active. fold (activeTriangles this).
  set (shown := activeTriangles this).
  assert (∀ i, i ∈ flat_map (λ tri, let '(i0, i1, i2) := indices tri in [i0; i1; i2]) shown ↔
               ∃ t, t ∈ triangles this ∧ deleted t = false ∧ hasVertex t i) as Hmem.
  { intros i. rewrite list_elem_of_In, in_flat_map. unfold hasVertex.
    split.
    - intros (t & Ht & Hi). exists t. apply list_elem_of_In in Ht.
      apply list_elem_of_filter in Ht as [Hdel Ht]. apply list_elem_of_In in Hi.
      destruct (indices t) as [[i0 i1] i2]. rewrite !elem_of_cons in Hi.
      split; [done | split; [done |]].
      destruct Hi as [? | [? | [? | Hnil]]]; [tauto .. | by apply elem_of_nil in Hnil].
    - intros (t & Ht & Hdel & Hi). exists t. split.
      + apply list_elem_of_In, list_elem_of_filter. by split.
      + apply list_elem_of_In. destruct (indices t) as [[i0 i1] i2].
        rewrite !elem_of_cons. tauto. }
  assert (∀ k p, active !! k = Some p →
            scenePositions active !! (3 * k)%nat = Some (Point3D.x p) ∧
            scenePositions active !! (3 * k + 1)%nat = Some (Point3D.z p) ∧
            scenePositions active !! (3 * k + 2)%nat = Some (- Point3D.y p)%float)
    as Hmarkers by apply scenePositions_lookup.
  destruct (Nat.ltb_spec (length active) 3) as [Hfew | Hmany].
  { split; [apply scenePositions_length | split; [done | split; [| done]]].
    split; [by left | done]. }
  destruct (Nat.eqb_spec (length shown) 0) as [Hnone | Hsome].
  { split; [apply scenePositions_length | split; [done | split; [| done]]].
    split; [| done]. intros _. right. by apply activeTriangles_nil, nil_length_inv. }
  split; [apply scenePositions_length | split; [done | split]].
  { split; [done |]. intros [? | Hall]; [lia |].
    apply activeTriangles_nil in Hall. fold shown in Hall. by rewrite Hall in Hsome. }
  intros g [= <-]. cbn [vertices indexBuffer].
  split; [done | split; [| split; [| split; [exact Hmem |]]]].
  - clear. induction shown as [| t ts IH]; [done |].
    simpl. rewrite length_app, IH. destruct (indices t) as [[i0 i1] i2]. simpl. lia.
  - intros n t i0 i1 i2 Hn Hix. by apply (indexBuffer_lookup shown n t).
  - intros Hrange i (t & Ht & _ & Hi)%Hmem.
    unfold trianglesInRange in Hrange. rewrite Forall_forall in Hrange.
    specialize (Hrange t Ht). fold active in Hrange.
    assert (N.to_nat i < length active)%nat as Hlt.
    { unfold triangleBelow, hasVertex in *. destruct (indices t) as [[i0 i1] i2].
      destruct Hi as [-> | [-> | ->]]; lia. }
    destruct (lookup_lt_is_Some_2 active (N.to_nat i) Hlt) as [p Hp].
    exists p. split; [done | by apply Hmarkers].
Qed.

(** X16. After [deleteEdge] the active points are as before and the
    triangles [updateMesh] and [findNearestEdge] work on are the ones they
    worked on before without those that have a side of the key, in the same
    order; a surface that is still drawn has exactly their indices. *)
Theorem deleteEdge_hides (this : TinMesh) (k : string) :
  let after := final (deleteEdge k this) in
  let kept := filter (λ t, hasKey k t = false) (activeTriangles this) in
  getActivePoints after = getActivePoints this ∧
  activeTriangles after = kept ∧
  ∀ g, fst (updateMeshGeometry after) = Some g →
       vertices g = scenePositions (getActivePoints this) ∧
       indexBuffer g =
         flat_map (λ tri, let '(i0, i1, i2) := indices tri in [i0; i1; i2]) kept.
Proof.
  intros after kept. subst after kept.
  assert (getActivePoints (final (deleteEdge k this)) = getActivePoints this) as Hactive.
  { by rewrite deleteEdge_final. }
  split; [done |]. split; [apply activeTriangles_after_deleteEdge |].
  intros g. unfold updateMeshGeometry. rewrite Hactive.
  fold (activeTriangles (final (deleteEdge k this))).
  rewrite activeTriangles_after_deleteEdge.
  destruct (length (getActivePoints this) <? 3)%nat; [done |].
  destruct (length _ =? 0)%nat; [done |].
  by intros [= <-].
Qed.

Lemma positionsFrom_length {A} (g : A → bool) (n : nat) (xs : list A) :
  length (positionsFrom g n xs) = length (filter (λ t, g t = true) xs).
Proof.
  revert n. induction xs as [| x xs IH]; intros n; [done |].
  rewrite positionsFrom_cons, filter_cons. destruct (g x).
  - rewrite decide_True by done. simpl. by rewrite IH.
  - rewrite decide_False by done. apply IH.
Qed.

Lemma filter_split_length {A} (g : A → bool) (xs : list A) :
  (length (filter (λ t, g t = false) xs) + length (filter (λ t, g t = true) xs))%nat =
    length xs.
Proof.
  induction xs as [| x xs IH]; [done |]. rewrite !filter_cons. destruct (g x).
  - rewrite decide_False, decide_True by done. simpl. lia.
  - rewrite decide_True, decide_False by done. simpl. lia.
Qed.

(** X24. [deleteEdge] takes out of the triangles that are not deleted
    exactly as many as [trianglesWithEdge] reported positions for the key. *)
Theorem deleteEdge_count (this : TinMesh) (k : string) :
  (length (activeTriangles (final (deleteEdge k this))) +
   length (trianglesWithEdge (triangles this) k))%nat =
    length (activeTriangles this).
Proof.
  rewrite activeTriangles_after_deleteEdge, trianglesWithEdge_positions,
    positionsFrom_length.
  rewrite <- (filter_split_length (hasKey k) (activeTriangles this)). f_equal.
  unfold activeTriangles. rewrite list_filter_filter. f_equal.
  apply list_filter_iff. intros t. rewrite andb_true_iff, negb_true_iff. tauto.
Qed.


(** ** Highlighting, degenerate meshes, and the life of an edge deletion *)

(** X17. Highlighting what was picked, as the mouse-move handler of point
    mode does: [highlightPoint] on the answer of [findNearestPoint] never
    throws; with no point picked no marker is left, and otherwise the marker
    is added to the scene at the picked point's position, strictly within
    the pick radius of the cursor. *)
Theorem highlight_picked (this : TinMesh) (point : Vector3.t) :
  match findNearestPoint this point with
  | None => highlightPoint this None = (inr tt, None)
  | Some i =>
      ∃ p, getActivePoints this !! i = Some p ∧
           highlightPoint this (Some (Z.of_nat i)) = (inr tt, Some (toScene p, true)) ∧
           (Vector3.distanceTo point (toScene p) <? 1.5)%float = true
  end.
Proof.
  unfold findNearestPoint.
  pose proof (nearestInv_loop point (getActivePoints this)) as Hinv.
  destruct (fold_left _ _ _) as [m idx]. destruct Hinv as [_ Hidx].
  destruct (m <? 1.5)%float eqn:Hnear; [| done].
  destruct idx as [i |]; [| done].
  destruct Hidx as (p & Hp & -> & _). exists p. split; [done | split; [| done]].
  unfold highlightPoint. apply lookup_lt_Some in Hp as Hlt.
  replace (Z.of_nat (length (getActivePoints this)) <=? Z.of_nat i) with false
    by (symmetry; apply Z.leb_gt; lia).
  replace (0 <=? Z.of_nat i) with true by (symmetry; apply Z.leb_le; lia).
  by rewrite Nat2Z.id, Hp.
Qed.

Section Ephemeral.

Variable Delaunator : list float → option (list N).

(** [regenerate] reads [points], [deletedPoints] and [onChange] only. *)
Lemma regenerate_reads (this other : TinMesh) :
points other = points this → deletedPoints other = deletedPoints this →
onChange other = onChange this →
result (regenerate Delaunator other) = result (regenerate Delaunator this) ∧
events (regenerate Delaunator other) = events (regenerate Delaunator this) ∧
(result (regenerate Delaunator this) = inr tt →
 final (regenerate Delaunator other) = final (regenerate Delaunator this)).
Proof.
intros Hpts Hdel Hcb. rewrite !regenerate_run. unfold getActivePoints.
rewrite Hpts, Hdel, Hcb. cbv zeta.
destruct (length _ <? 3)%nat; [done |].
by destruct (Delaunator _).
Qed.

(** X18. With fewer than three active points [regenerate] returns
  normally without reaching the capability and leaves no triangle;
  [findNearestEdge] then answers nothing and [updateMesh] draws the
  markers only. *)
Theorem regenerate_degenerate (this : TinMesh) (point : Vector3.t) :
(length (getActivePoints this) < 3)%nat →
let run := regenerate Delaunator this in
result run = inr tt ∧
triangles (final run) = [] ∧
(∀ coords, NewDelaunator coords ∉ events run) ∧
findNearestEdge (final run) point = inr None ∧
updateMeshGeometry (final run) = (None, scenePositions (getActivePoints this)).
Proof.
intros Hfew run. subst run.
assert (getActivePoints (final (regenerate Delaunator this)) = getActivePoints this)
  as Hactive by apply regenerate_active.
apply Nat.ltb_lt in Hfew as Hfewb.
assert (triangles (final (regenerate Delaunator this)) = []) as Hnone.
{ rewrite regenerate_run. cbv zeta. by rewrite Hfewb. }
split; [| split; [done | split; [| split]]].
- rewrite regenerate_run. cbv zeta. by rewrite Hfewb.
- intros coords. rewrite regenerate_run. cbv zeta. rewrite Hfewb. cbn [events].
  rewrite elem_of_cons. intros [? | Hin]; [done |].
  destruct (onChange this); [| by apply elem_of_nil in Hin].
  apply elem_of_cons in Hin as [? | Hin]; [done | by apply elem_of_nil in Hin].
- unfold findNearestEdge. by rewrite Hnone.
- unfold updateMeshGeometry. by rewrite Hactive, Hfewb.
Qed.

(** X19. Edge deletions do not outlive a retriangulation: after
  [deleteEdge], each of [regenerate], [setPoints] and a
  [deletePointByActiveIndex] with a valid index ends as it would have
  without the edge deletion, with the same events, and when it returns it
  leaves the very same object. *)
Theorem edge_deletion_ephemeral (this : TinMesh) (k : string)
  (pts : list Point3D.t) (i : Z) :
let trimmed := final (deleteEdge k this) in
(result (regenerate Delaunator trimmed) = result (regenerate Delaunator this) ∧
 events (regenerate Delaunator trimmed) = events (regenerate Delaunator this) ∧
 (result (regenerate Delaunator this) = inr tt →
  final (regenerate Delaunator trimmed) = final (regenerate Delaunator this))) ∧
(result (setPoints Delaunator pts trimmed) = result (setPoints Delaunator pts this) ∧
 events (setPoints Delaunator pts trimmed) = events (setPoints Delaunator pts this) ∧
 (result (setPoints Delaunator pts this) = inr tt →
  final (setPoints Delaunator pts trimmed) = final (setPoints Delaunator pts this))) ∧
(0 ≤ i < Z.of_nat (length (getActivePoints this)) →
 result (deletePointByActiveIndex Delaunator i trimmed) =
   result (deletePointByActiveIndex Delaunator i this) ∧
 events (deletePointByActiveIndex Delaunator i trimmed) =
   events (deletePointByActiveIndex Delaunator i this) ∧
 (result (deletePointByActiveIndex Delaunator i this) = inr tt →
  final (deletePointByActiveIndex Delaunator i trimmed) =
    final (deletePointByActiveIndex Delaunator i this))).
Proof.
intros trimmed. subst trimmed.
assert (getActivePoints (final (deleteEdge k this)) = getActivePoints this ∧
        activeRawIndices (final (deleteEdge k this)) = activeRawIndices this)
  as [Hactive Hraw] by (by rewrite deleteEdge_final).
split; [| split].
- apply regenerate_reads; by rewrite deleteEdge_final.
- rewrite !setPoints_run. apply regenerate_reads; by rewrite ?deleteEdge_final.
- intros Hin.
  destruct (deletePointByActiveIndex_run Delaunator this i Hin) as (r & Hr & ->).
  destruct (deletePointByActiveIndex_run Delaunator (final (deleteEdge k this)) i)
    as (r' & Hr' & ->); [by rewrite Hactive |].
  rewrite Hraw in Hr'. simplify_eq.
  apply regenerate_reads; by rewrite deleteEdge_final.
Qed.

End Ephemeral.


(** ** The clamp of [distanceToLineSegment] *)

Section Clamp.

Lemma SFltb_leb u v : SFltb u v = true → SFleb u v = true.
Proof.
unfold SFltb, SFleb. by destruct (SFcompare u v) as [[| |] |].
Qed.

Lemma ltb_leb (u v : float) : (u <? v)%float = true → (u <=? v)%float = true.
Proof. rewrite ltb_spec, leb_spec. apply SFltb_leb. Qed.

(** X20. [Math.max(0, Math.min(1, q))], the parameter at which
  [distanceToLineSegment] takes the closest point: it is NaN exactly when
  the quotient [q] is NaN, and otherwise it lies between 0 and 1, ends
  included. *)
Theorem clamp_unit_interval (q : float) :
let t := MathMax 0 (MathMin 1 q) in
if is_nan q then is_nan t = true
else is_nan t = false ∧ (0 <=? t)%float = true ∧ (t <=? 1)%float = true.
Proof.
intros t. subst t. unfold MathMin. destruct (is_nan q) eqn:Hnan.
- rewrite orb_true_r. reflexivity.
- replace (is_nan 1 || false) with false by reflexivity.
  destruct (1 <? q)%float; [repeat split; reflexivity |].
  destruct (q <? 1)%float eqn:Hbelow; [| repeat split; reflexivity].
  unfold MathMax. rewrite Hnan.
  replace (is_nan 0 || false) with false by reflexivity.
  destruct (0 <? q)%float eqn:Habove.
  + split; [done | split; by apply ltb_leb].
  + destruct (q <? 0)%float; repeat split; reflexivity.
Qed.

End Clamp.


(** ** Layout of [computeDelaunay], reachable meshes *)

Section Layout.

Variable Delaunator : list float → option (list N).

(** X22. On at least three points for which the capability answers an
  array of [3 * n] indices, [computeDelaunay] returns [n] triangles, and
  triangle [k] is made of the entries [3k], [3k+1] and [3k+2] of that
  array, in this order, with [deleted = false]. *)
Theorem computeDelaunay_layout {S} (pts : list Point3D.t) (s : S)
  (flat : list N) (n : nat) :
(3 ≤ length pts)%nat →
Delaunator (flat_map (λ p, [Point3D.x p; Point3D.y p]) pts) = Some flat →
length flat = (3 * n)%nat →
∃ tris, result (computeDelaunay Delaunator pts s) = inr tris ∧
        length tris = n ∧
        ∀ k i0 i1 i2,
          flat !! (3 * k)%nat = Some i0 → flat !! (3 * k + 1)%nat = Some i1 →
          flat !! (3 * k + 2)%nat = Some i2 →
          tris !! k = Some (mkTriangle (i0, i1, i2) false).
Proof.
intros Hmany Hflat Hlen. exists (packTriangles flat).
rewrite computeDelaunay_run.
replace (length pts <? 3)%nat with false by (symmetry; apply Nat.ltb_ge; lia).
cbv zeta. rewrite Hflat. split; [done | split].
- by apply packTriangles_length.
- intros k i0 i1 i2. apply packTriangles_lookup.
Qed.

(** X23. With a capability that answers three indices per triangle, each
  below the number of points it was given, every object obtained from
  [new TinMesh()] through calls that returned normally is consistent: the soft-deleted indices are
  positions of [points], every triangle refers to active points, and
  [findNearestEdge] returns normally for every cursor. *)
Theorem reachable_consistent (this : TinMesh) :
DelaunatorContract Delaunator →
Reachable Delaunator this →
deletedPointsValid this ∧
trianglesInRange this ∧
∀ point, ∃ r, findNearestEdge this point = inr r.
Proof.
intros Hcontract Hreach.
assert (deletedPointsValid this ∧ trianglesInRange this) as [Hvalid Hrange].
{ induction Hreach as [| this cb _ [IHv IHr] | this pts _ [IHv IHr] Hret
                       | this _ [IHv IHr] Hret | this k _ [IHv IHr]
                       | this i _ [IHv IHr] Hret].
  - split; [intros r Hr; by apply not_elem_of_empty in Hr | constructor].
  - done.
  - split; [apply setPoints_valid |].
    rewrite setPoints_run in Hret |- *. by apply regenerate_in_range.
  - split; [by apply regenerate_valid | by apply regenerate_in_range].
  - split; [by rewrite deleteEdge_final | by apply deleteEdge_in_range].
  - split; [by apply deletePointByActiveIndex_valid_indices |].
    apply deletePointByActiveIndex_in_range; [done | by right | done]. }
split; [done | split; [done |]].
intros point. apply findNearestEdge_no_throw.
apply Forall_forall. intros t [_ Ht]%list_elem_of_filter.
unfold trianglesInRange in Hrange. rewrite Forall_forall in Hrange. by apply Hrange.
Qed.

End Layout.


(** ** The statements at work on the square *)

(** C1 fails as stated for [setPoints]: with a constructor that throws, the
    call on the square mesh with three new points leaves [points] holding
    the three new points, not the four old ones. *)
Lemma setPoints_failure_not_atomic :
  ¬ (∀ (Delaunator : list float → option (list N)) (this : TinMesh)
       (pts : list Point3D.t) (e : Exn),
       result (setPoints Delaunator pts this) = inl e →
       let after := final (setPoints Delaunator pts this) in
       points after = points this ∧
       deletedPoints after = deletedPoints this ∧
       triangles after = triangles this).
Proof.
  intros Hatomic.
  destruct (Hatomic throwingDelaunator squareMesh (take 3 square) DelaunatorError)
    as [Hpoints _]; [reflexivity |].
  vm_compute in Hpoints. discriminate Hpoints.
Qed.

Lemma triangulation_failure_state_witness :
  final (regenerate throwingDelaunator squareMesh) = squareMesh ∧
  (let after := final (setPoints throwingDelaunator (take 3 square) squareMesh) in
   triangles after = triangles squareMesh ∧
   points after = take 3 square ∧ deletedPoints after = ∅ ∧
   onChange after = onChange squareMesh).
Proof.
  destruct (triangulation_failure_state throwingDelaunator squareMesh
              (take 3 square) DelaunatorError) as [Hregen Hset].
  split; [apply Hregen | apply Hset]; reflexivity.
Defined.

Lemma deletePointByActiveIndex_valid_witness :
  let after := final (deletePointByActiveIndex stripDelaunator 1 squareMesh) in
  ∃ r, activeRawIndices squareMesh !! 1%nat = Some r ∧
       deletedPoints after = {[r]} ∪ deletedPoints squareMesh ∧
       (length (getActivePoints after) + 1)%nat = length (getActivePoints squareMesh) ∧
       Forall (λ t, deleted t = false) (triangles after).
Proof.
  destruct (deletePointByActiveIndex_valid stripDelaunator squareMesh 1)
    as (r & Hr & _ & _ & Hdel & _ & Hlen & _ & Hfresh).
  - vm_compute. split; [discriminate | reflexivity].
  - exists r. split; [exact Hr | split; [exact Hdel | split; [exact Hlen |]]].
    apply Hfresh. reflexivity.
Defined.

Lemma deletePointByActiveIndex_out_of_range_witness :
  deletePointByActiveIndex stripDelaunator 4 squareMesh = mkRun (inr tt) squareMesh [] ∧
  deletePointByActiveIndex stripDelaunator (-1) squareMesh = mkRun (inr tt) squareMesh [].
Proof.
  split; apply deletePointByActiveIndex_out_of_range.
  - right. vm_compute. discriminate.
  - left. reflexivity.
Defined.

Lemma deleteEdge_spec_witness :
  let after := final (deleteEdge "1-2" squareMesh) in
  Z.of_nat (length (trianglesWithEdge (triangles squareMesh) "1-2")) = 2 ∧
  length (triangles after) = length (triangles squareMesh) ∧
  points after = points squareMesh ∧
  events (deleteEdge "1-2" squareMesh) = [UpdateMesh; OnChange 7%nat].
Proof.
  destruct (deleteEdge_spec squareMesh "1-2")
    as (_ & _ & _ & _ & Hlen & Hpts & _ & _ & Hev).
  split; [reflexivity | split; [exact Hlen | split; [exact Hpts | exact Hev]]].
Defined.

Lemma computeDelaunay_small_and_fresh_witness :
  computeDelaunay throwingDelaunator (take 2 square) tt = mkRun (inr []) tt [] ∧
  Forall (λ t, deleted t = false) (packTriangles (stripTriangles 4)).
Proof.
  split.
  - apply (proj1 (computeDelaunay_small_and_fresh throwingDelaunator (take 2 square) tt)).
    simpl. lia.
  - apply (proj2 (computeDelaunay_small_and_fresh stripDelaunator square tt)).
    reflexivity.
Defined.

Lemma computeDelaunay_ignores_z_witness :
  computeDelaunay stripDelaunator square tt = computeDelaunay stripDelaunator raisedSquare tt.
Proof.
  apply computeDelaunay_ignores_z. unfold square, raisedSquare.
  repeat constructor.
Defined.

Lemma regenerate_idempotent_witness :
  regenerate stripDelaunator (final (regenerate stripDelaunator squareMesh)) =
    regenerate stripDelaunator squareMesh ∧
  final (setPoints stripDelaunator square squareMesh) = squareMesh.
Proof.
  destruct (regenerate_idempotent stripDelaunator squareMesh squareMesh square)
    as ((Hres & Hfin & Hev) & _ & (_ & _ & _ & Hset)).
  split; [| exact Hset].
  destruct (regenerate stripDelaunator (final (regenerate stripDelaunator squareMesh))),
           (regenerate stripDelaunator squareMesh).
  simpl in *. by subst.
Defined.

Lemma rejected_delete_is_silent_witness :
  events (deletePointByActiveIndex stripDelaunator 9 squareMesh) = [] ∧
  deleteEdge "0-3" squareMesh = mkRun (inr tt) squareMesh [UpdateMesh; OnChange 7%nat].
Proof.
  apply rejected_delete_is_silent.
  - reflexivity.
  - right. vm_compute. discriminate.
  - reflexivity.
Defined.

(** [findNearestPoint] at work: a pick next to the far corner, a pick at
    the centre of the square (every corner is beyond the radius), and a pick
    halfway between two points (the lower index wins). *)
Example sceneDistance_axes :
  sceneDistance (Vector3.mk 0 0 0) (Point3D.mk 3 4 12) = 13%float ∧
  sceneDistance (Vector3.mk 1 7 (-2)) (Point3D.mk 1 2 7) = 0%float.
Proof. split; reflexivity. Qed.

Example findNearestPoint_corner :
  findNearestPoint squareMesh (Vector3.mk 5 0 (-4.5)) = Some 3%nat.
Proof. reflexivity. Qed.

Example findNearestPoint_centre :
  findNearestPoint squareMesh (Vector3.mk 2.5 0 (-2.5)) = None.
Proof. reflexivity. Qed.

Example findNearestPoint_tie :
  findNearestPoint pairMesh (Vector3.mk 0.5 0 0) = Some 0%nat.
Proof. reflexivity. Qed.

(** The concrete scenarios of the square, with the strip standing in for
    Delaunator: two triangles; both go with the shared diagonal; three
    points and one triangle remain after deleting the point at index 1. *)
Example square_two_triangles :
  triangles squareMesh =
    [ mkTriangle (0, 1, 2)%N false; mkTriangle (1, 2, 3)%N false ].
Proof. reflexivity. Qed.

Example square_diagonal_deleted :
  triangles (final (deleteEdge "1-2" squareMesh)) =
    [ mkTriangle (0, 1, 2)%N true; mkTriangle (1, 2, 3)%N true ] ∧
  length (getActivePoints (final (deleteEdge "1-2" squareMesh))) = 4%nat.
Proof. split; reflexivity. Qed.

Example square_point_deleted :
  let after := final (deletePointByActiveIndex stripDelaunator 1 squareMesh) in
  getActivePoints after = [ Point3D.mk 0 0 0; Point3D.mk 0 5 0; Point3D.mk 5 5 0 ] ∧
  triangles after = [ mkTriangle (0, 1, 2)%N false ].
Proof. split; reflexivity. Qed.


(** ** The further statements at work on the square *)

Lemma stripTriangles_below (n : nat) :
  Forall (λ i, (N.to_nat i < n)%nat) (stripTriangles n).
Proof.
  apply Forall_forall. intros i Hi. unfold stripTriangles in Hi.
  apply list_elem_of_In, in_flat_map in Hi as (k & Hk & Hi).
  apply list_elem_of_In, elem_of_seq in Hk. apply list_elem_of_In in Hi.
  rewrite !elem_of_cons in Hi.
  destruct Hi as [-> | [-> | [-> | Hnil]]]; [lia .. | by apply elem_of_nil in Hnil].
Qed.

Lemma stripTriangles_length (n : nat) :
  length (stripTriangles n) = (3 * (n - 2))%nat.
Proof.
  assert (∀ ks : list nat,
            length (flat_map (λ k, [N.of_nat k; N.of_nat (k + 1); N.of_nat (k + 2)]) ks) =
              (3 * length ks)%nat) as Htriples.
  { induction ks as [| k ks IH]; [done |]. simpl in *. rewrite IH. lia. }
  unfold stripTriangles. by rewrite Htriples, length_seq.
Qed.

Lemma stripDelaunator_in_range : DelaunatorContract stripDelaunator.
Proof.
  intros coords tris Heq. unfold stripDelaunator in Heq. injection Heq as <-.
  split; [eexists; apply stripTriangles_length | apply stripTriangles_below].
Qed.

Lemma squareMesh_valid : deletedPointsValid squareMesh.
Proof. intros r Hr. by apply not_elem_of_empty in Hr. Qed.

Lemma squareMesh_in_range : trianglesInRange squareMesh.
Proof. repeat constructor. Qed.

Lemma squareMesh_reachable : Reachable stripDelaunator squareMesh.
Proof.
  apply (reach_setPoints _ (mkTinMesh [] [] ∅ (Some 7%nat)) square); [| reflexivity].
  apply (reach_onChange _ newTinMesh (Some 7%nat)), reach_new.
Qed.

Lemma deletedPointsValid_preserved_witness :
  deletedPointsValid (final (deletePointByActiveIndex stripDelaunator 1 squareMesh)) ∧
  deletedPointsValid (final (setPoints throwingDelaunator raisedSquare squareMesh)).
Proof.
  split.
  - apply (deletedPointsValid_preserved stripDelaunator squareMesh square "1-2" 1).
    exact squareMesh_valid.
  - apply (deletedPointsValid_preserved throwingDelaunator squareMesh raisedSquare "1-2" 1).
    exact squareMesh_valid.
Defined.

Lemma trianglesInRange_preserved_witness :
  trianglesInRange (final (deletePointByActiveIndex stripDelaunator 1 squareMesh)) ∧
  trianglesInRange (final (deleteEdge "1-2" squareMesh)).
Proof.
  destruct (trianglesInRange_preserved stripDelaunator squareMesh square "1-2" 1
              stripDelaunator_in_range) as (_ & _ & Hedge & Hpoint).
  split.
  - apply Hpoint; [| reflexivity]. left. vm_compute. split; [discriminate | reflexivity].
  - apply Hedge. exact squareMesh_in_range.
Defined.

Lemma deletePointByActiveIndex_removes_witness :
  getActivePoints (final (deletePointByActiveIndex stripDelaunator 1 squareMesh)) =
    delete 1%nat (getActivePoints squareMesh).
Proof.
  apply (deletePointByActiveIndex_removes stripDelaunator squareMesh 1).
  vm_compute. split; [discriminate | reflexivity].
Defined.

Lemma pick_then_delete_witness :
  ∃ p, getActivePoints squareMesh !! 3%nat = Some p ∧
       (sceneDistance (Vector3.mk 5 0 (-4.5)) p <? 1.5)%float = true ∧
       getActivePoints
         (final (deletePointByActiveIndex stripDelaunator (Z.of_nat 3) squareMesh)) =
         delete 3%nat (getActivePoints squareMesh).
Proof.
  apply (pick_then_delete stripDelaunator squareMesh (Vector3.mk 5 0 (-4.5)) 3).
  reflexivity.
Defined.

Lemma pick_edge_then_delete_witness :
  "1-2" ≠ EmptyString ∧
  trianglesWithEdge (triangles squareMesh) "1-2" ≠ [] ∧
  ∀ point', findNearestEdge (final (deleteEdge "1-2" squareMesh)) point' ≠ inr (Some "1-2").
Proof.
  apply (pick_edge_then_delete squareMesh (Vector3.mk 2.5 0 (-2.5)) "1-2").
  reflexivity.
Defined.

Lemma regenerate_degenerate_witness :
  let run := regenerate throwingDelaunator pairMesh in
  result run = inr tt ∧
  triangles (final run) = [] ∧
  (∀ coords, NewDelaunator coords ∉ events run) ∧
  findNearestEdge (final run) (Vector3.mk 0 0 0) = inr None ∧
  updateMeshGeometry (final run) = (None, scenePositions (getActivePoints pairMesh)).
Proof.
  apply (regenerate_degenerate throwingDelaunator pairMesh (Vector3.mk 0 0 0)).
  vm_compute. lia.
Defined.

Lemma edge_deletion_ephemeral_witness :
  final (regenerate stripDelaunator (final (deleteEdge "1-2" squareMesh))) =
    final (regenerate stripDelaunator squareMesh) ∧
  final (deletePointByActiveIndex stripDelaunator 1 (final (deleteEdge "1-2" squareMesh))) =
    final (deletePointByActiveIndex stripDelaunator 1 squareMesh).
Proof.
  destruct (edge_deletion_ephemeral stripDelaunator squareMesh "1-2" square 1)
    as ((_ & _ & Hregen) & _ & Hpoint).
  split.
  - apply Hregen. reflexivity.
  - apply Hpoint; [| reflexivity]. vm_compute. split; [discriminate | reflexivity].
Defined.

Lemma computeDelaunay_layout_witness :
  ∃ tris, result (computeDelaunay stripDelaunator square tt) = inr tris ∧
          length tris = 2%nat ∧
          ∀ k i0 i1 i2,
            stripTriangles 4 !! (3 * k)%nat = Some i0 →
            stripTriangles 4 !! (3 * k + 1)%nat = Some i1 →
            stripTriangles 4 !! (3 * k + 2)%nat = Some i2 →
            tris !! k = Some (mkTriangle (i0, i1, i2) false).
Proof.
  apply (computeDelaunay_layout stripDelaunator square tt (stripTriangles 4) 2).
  - simpl. lia.
  - reflexivity.
  - reflexivity.
Defined.

Lemma reachable_consistent_witness :
  deletedPointsValid squareMesh ∧
  trianglesInRange squareMesh ∧
  ∀ point, ∃ r, findNearestEdge squareMesh point = inr r.
Proof.
  apply (reachable_consistent stripDelaunator squareMesh).
  - exact stripDelaunator_in_range.
  - exact squareMesh_reachable.
Defined.
